(** * Householder QR factorisation: a shallow embedding of [householderQR.cpp]

    The routine [householder] overwrites the columns of a column-major
    matrix with the factor R and stores one reflection vector per column.
    The embedding follows the source statement by statement:

    - a [double] is a real number or the one non-real value [NaN]; sums,
      products and square roots are the exact real ones, so rounding,
      overflow and underflow are left out;
    - an array is a list; reading or writing outside it has no defined
      behaviour in C++ and makes the embedded routine return [None];
    - [double ** a] is a list of columns and [double ** v] a list of
      reflection vectors; all these arrays are distinct allocations, as in
      the driver, so a write to one is not seen through another;
    - the loop counters and dimensions index allocated arrays and are
      natural numbers; under the precondition [n <= m] every length [m - i]
      handed to a primitive is non-negative, so the truncated subtraction
      of [nat] agrees with that of [int]. *)

From Stdlib Require Import Reals Lra Lia ZArith.
From stdpp Require Import base option list.

(** ** Doubles in exact arithmetic *)

Inductive dbl : Type :=
  | Fin (r : R)
  | NaN.

Definition dadd (x y : dbl) : dbl :=
  match x, y with Fin a, Fin b => Fin (a + b) | _, _ => NaN end.

Definition dsub (x y : dbl) : dbl :=
  match x, y with Fin a, Fin b => Fin (a - b) | _, _ => NaN end.

Definition dmul (x y : dbl) : dbl :=
  match x, y with Fin a, Fin b => Fin (a * b) | _, _ => NaN end.

(** A quotient by zero is no real number.  IEEE arithmetic yields NaN for
    0/0 and an infinity for x/0 with x nonzero; both are [NaN] here.  The
    only division of [householder] is by the norm of the vector it divides,
    which is zero only when every dividend is zero. *)
Definition ddiv (x y : dbl) : dbl :=
  match x, y with
  | Fin a, Fin b => if Req_dec_T b 0 then NaN else Fin (a / b)
  | _, _ => NaN
  end.

Definition dsqrt (x : dbl) : dbl :=
  match x with
  | Fin a => if Rlt_dec a 0 then NaN else Fin (sqrt a)
  | NaN => NaN
  end.

(** [x < y] on doubles; false as soon as one side is [NaN]. *)
Definition dlt (x y : dbl) : bool :=
  match x, y with
  | Fin a, Fin b => if Rlt_dec a b then true else false
  | _, _ => false
  end.

(** ** Arrays and loops *)

(** [l[k] = x]; [None] when [k] is outside the array. *)
Definition write {A : Type} (l : list A) (k : nat) (x : A) : option (list A) :=
  if decide (k < length l) then Some (<[k:=x]> l) else None.

(** [for (j = k; j < k + cnt; j++) body(j)]. *)
Fixpoint for_loop {St : Type} (k cnt : nat) (body : nat -> St -> option St)
    (s : St) : option St :=
  match cnt with
  | O => Some s
  | S c => s' ← body k s; for_loop (S k) c body s'
  end.

(** [a[j][r]] for an array of arrays. *)
Definition entry (a : list (list dbl)) (j r : nat) : option dbl :=
  col ← a !! j; col !! r.

(** ** The vector primitives of [linearalgebra.h] *)

(** Modelled from the spec: [partialvec_copy] is declared in
    [../linearalgebra.h], which is not among the sources.  The interface
    table gives [partialCopy(src, dst, len, offset)]: copies
    [src[offset .. offset+len)] into [dst[0 .. len)]. *)
Definition partialvec_copy (src dst : list dbl) (len offset : nat)
    : option (list dbl) :=
  for_loop 0 len
    (fun k dst => x ← src !! (offset + k); write dst k x) dst.

(** Modelled from the spec: [partialdot_product] is declared in
    [../linearalgebra.h].  The interface table gives
    [partialDot(u, w, len, skip)]: the sum of [u[k]*w[k]] for [k] in
    [[skip, len)]. *)
Definition partialdot_product (u w : list dbl) (len skip : nat) : option dbl :=
  for_loop skip (len - skip)
    (fun k acc => x ← u !! k; y ← w !! k; Some (dadd acc (dmul x y)))
    (Fin 0).

(** Modelled from the spec: [subdot_product] is declared in
    [../linearalgebra.h].  The interface table gives
    [subDot(u, v, len, offset)]: the sum of [u[offset+k]*v[k]] for [k] in
    [[0, len)]. *)
Definition subdot_product (u v : list dbl) (len offset : nat) : option dbl :=
  for_loop 0 len
    (fun k acc => x ← u !! (offset + k); y ← v !! k;
                  Some (dadd acc (dmul x y)))
    (Fin 0).

(** Modelled from the spec: [scalar_div] is declared in
    [../linearalgebra.h].  The interface table gives
    [scalarDivide(v, scalar, len, out)]: [out[k] = v[k] / scalar] for [k] in
    [[0, len)].  [householder] passes the same array as [v] and as [out],
    so the embedding threads that one array: each read sees the writes made
    before it. *)
Definition scalar_div (v : list dbl) (scalar : dbl) (len : nat)
    : option (list dbl) :=
  for_loop 0 len
    (fun k out => x ← out !! k; write out k (ddiv x scalar)) v.

(** Modelled from the spec: [partialscalar_sub] is declared in
    [../linearalgebra.h].  The interface table gives
    [partialScaledSubtract(v, coef, offset, inout)]:
    [inout[offset+k] -= coef * v[k]] for [k] in [[0, len)]; the source passes
    the length before the offset. *)
Definition partialscalar_sub (v : list dbl) (coef : dbl) (len offset : nat)
    (inout : list dbl) : option (list dbl) :=
  for_loop 0 len
    (fun k io => x ← v !! k; y ← io !! (offset + k);
                 write io (offset + k) (dsub y (dmul coef x)))
    inout.

(** Modelled from the spec: [dot_product] is declared in
    [../linearalgebra.h].  The interface table gives [dot(u, v, len)]: the
    full-length inner product. *)
Definition dot_product (u v : list dbl) (len : nat) : option dbl :=
  for_loop 0 len
    (fun k acc => x ← u !! k; y ← v !! k; Some (dadd acc (dmul x y)))
    (Fin 0).

(** ** [householder] *)

(** Lines 44-50: set [v[i][0] = v[i][0] + sign(v[i][0]) * ||v[i]||]. *)
Definition set_first_entry (vi : list dbl) (vpartdot : dbl)
    : option (list dbl) :=
  x0 ← vi !! 0;
  if dlt x0 (Fin 0)
  then write vi 0 (dsub x0 (dsqrt (dadd (dmul x0 x0) vpartdot)))
  else write vi 0 (dadd x0 (dsqrt (dadd (dmul x0 x0) vpartdot))).

(** Lines 52-54: normalize [v[i]]. *)
Definition normalize (vi : list dbl) (vpartdot : dbl) (len : nat)
    : option (list dbl) :=
  x0 ← vi !! 0;
  let vnorm := dsqrt (dadd (dmul x0 x0) vpartdot) in
  scalar_div vi vnorm len.

(** Lines 57-60, the body of the loop over [j]:
    [a[j][i:m] = a[j][i:m] - 2 * (v[i]^T a[j][i:m]) * v[i]]. *)
Definition reflect_column (vi : list dbl) (m i : nat) (aj : list dbl)
    : option (list dbl) :=
  vTa ← subdot_product aj vi (m - i) i;
  let vTa := dmul vTa (Fin 2) in
  partialscalar_sub vi vTa (m - i) i aj.

Definition store : Type := list (list dbl) * list (list dbl).

(** Lines 35-54: build the unit reflection vector [v[i]] from the active
    sub-column [a[i][i : m]]. *)
Definition reflection_vector (ai vi : list dbl) (m i : nat)
    : option (list dbl) :=
  vi ← partialvec_copy ai vi (m - i) i;
  vpartdot ← partialdot_product vi vi (m - i) 1;
  vi ← set_first_entry vi vpartdot;
  normalize vi vpartdot (m - i).

(** Lines 35-61, the body of the loop over [i]. *)
Definition householder_iter (m n i : nat) (s : store) : option store :=
  let '(a, v) := s in
  ai ← a !! i;
  vi ← v !! i;
  vi ← reflection_vector ai vi m i;
  v ← write v i vi;
  a ← for_loop i (n - i)
        (fun j a => aj ← a !! j; aj ← reflect_column vi m i aj; write a j aj)
        a;
  Some (a, v).

Definition householder (a v : list (list dbl)) (m n : nat) : option store :=
  for_loop 0 n (householder_iter m n) (a, v).

(** The store after the first [i] iterations of the outer loop. *)
Definition householder_upto (a v : list (list dbl)) (m n i : nat)
    : option store :=
  for_loop 0 i (householder_iter m n) (a, v).

(** ** The driver [main], up to its call of [householder] *)

(** Lines 91-101: [a[i][j] = 0] above the diagonal and [j - i + 1] from the
    diagonal on. *)
Definition init_matrix (m n : nat) : list (list dbl) :=
  map (fun i =>
         map (fun j => if decide (j < i) then Fin 0
                       else Fin (INR (j - i + 1)))
             (seq 0 m))
      (seq 0 n).

Inductive main_outcome : Type :=
  | Rejected
      (* line 77: message, [return 0], nothing allocated *)
  | BadArrayLength
      (* line 84: [new double*[n]] with a negative [n] *)
  | CallsHouseholder (a : list (list dbl)) (m n : nat)
      (* line 114 *).

(** [m] and [n] are the two integers read by [scanf]. *)
Definition main (m n : Z) : main_outcome :=
  if (m <? n)%Z then Rejected
  else if (n <? 0)%Z then BadArrayLength
  else CallsHouseholder (init_matrix (Z.to_nat m) (Z.to_nat n))
                        (Z.to_nat m) (Z.to_nat n).

(** ** Vocabulary of the specification *)

(** The storage contract of [householder]: [a] holds [n] columns of length
    at least [m], [v] holds [n] vectors, the [i]-th of capacity at least
    [m - i]. *)
Definition columns_ok (m n : nat) (a : list (list dbl)) : Prop :=
  ∀ j, j < n → ∃ col, a !! j = Some col ∧ m ≤ length col.

Definition vectors_ok (m n : nat) (v : list (list dbl)) : Prop :=
  ∀ i, i < n → ∃ vi, v !! i = Some vi ∧ m - i ≤ length vi.

(** Every entry of the [m] by [n] matrix is a real number. *)
Definition real_matrix (m n : nat) (a : list (list dbl)) : Prop :=
  ∀ j r, j < n → r < m → ∃ x, entry a j r = Some (Fin x).

(** The active sub-column [a[i][i .. m)] is entirely zero. *)
Definition zero_active (m i : nat) (a : list (list dbl)) : Prop :=
  ∀ r, i ≤ r < m → entry a i r = Some (Fin 0).

(** No step of the run meets an all-zero active sub-column. *)
Definition nondegenerate (m n : nat) (a v : list (list dbl)) : Prop :=
  ∀ i s, i < n → householder_upto a v m n i = Some s →
         ¬ zero_active m i s.1.

(** The sign of the specification: [-1] below zero and [+1] otherwise. *)
Definition sign (x : dbl) : dbl :=
  if dlt x (Fin 0) then Fin (-1) else Fin 1.

(** The first-entry update in the words of the specification:
    [v_i[0] += sign(v_i[0]) * sqrt(v_i[0]^2 + tailNormSq)]. *)
Definition set_first_entry_spec (vi : list dbl) (tailNormSq : dbl)
    : option (list dbl) :=
  x0 ← vi !! 0;
  write vi 0 (dadd x0 (dmul (sign x0) (dsqrt (dadd (dmul x0 x0) tailNormSq)))).


(** The double stored at [l[k]]; [NaN] stands in where there is none. *)
Definition getD (l : list dbl) (k : nat) : dbl :=
  match l !! k with Some d => d | None => NaN end.

(** [f lo + f (lo+1) + ... + f (lo+cnt-1)] on doubles, accumulated from 0
    as the dot-product loops do. *)
Fixpoint dsum (f : nat -> dbl) (lo cnt : nat) : dbl :=
  match cnt with
  | O => Fin 0
  | S c => dadd (dsum f lo c) (f (lo + c)%nat)
  end.

(** The reflector [H_i = I - 2 v_i v_i^T] of the specification.  [v_i] has
    length [m - i] and stands for the vector of length [m] with [i] zeros
    in front, so [H_i] changes rows [i .. m) only:
    [(H_i y)[r] = y[r] - 2 * v_i[r - i] * (v_i . y[i .. m))]. *)
Definition reflector (vi : list dbl) (m i : nat) (col : list dbl) : list dbl :=
  let vTy := dsum (fun l => dmul (getD vi l) (getD col (i + l))) 0 (m - i) in
  imap (fun r y => if decide (i ≤ r < m)
                   then dsub y (dmul (Fin 2) (dmul (getD vi (r - i)) vTy))
                   else y)
       col.

(** [H_0 (H_1 (... (H_{k-1} col)))] with the reflectors of the vectors in
    [v]: the last reflector is applied first. *)
Fixpoint apply_Q (v : list (list dbl)) (m k : nat) (col : list dbl)
    : option (list dbl) :=
  match k with
  | O => Some col
  | S k' => vi ← v !! k'; apply_Q v m k' (reflector vi m k' col)
  end.

(** ** Real-valued views used in the proofs *)

Open Scope R_scope.

(** [f lo + f (lo+1) + ... + f (lo+cnt-1)], accumulated as the loops do. *)
Fixpoint sum_range (f : nat -> R) (lo cnt : nat) : R :=
  match cnt with
  | O => 0
  | S c => sum_range f lo c + f (lo + c)%nat
  end.

(** The real number stored at [l[k]], and 0 where there is none. *)
Definition getR (l : list dbl) (k : nat) : R :=
  match l !! k with Some (Fin r) => r | _ => 0 end.

Definition sgn (r : R) : R := if Rlt_dec r 0 then -1 else 1.

(** The squared Euclidean norm and the norm of a list of reals. *)
Definition sumsq (xs : list R) : R := foldr (fun x acc => x * x + acc) 0 xs.

Definition norm (xs : list R) : R := sqrt (sumsq xs).

(** The reflection vector of a real vector [x] of length [L], entry by
    entry, and the reflection it defines. *)
Definition tailsq (x : nat -> R) (L : nat) : R :=
  sum_range (fun k => x k * x k) 1 (L - 1).

Definition hnorm (x : nat -> R) (L : nat) : R :=
  sqrt (x O * x O + tailsq x L).

Definition hfirst (x : nat -> R) (L : nat) : R :=
  if Rlt_dec (x O) 0 then x O - hnorm x L else x O + hnorm x L.

Definition hvnorm (x : nat -> R) (L : nat) : R :=
  sqrt (hfirst x L * hfirst x L + tailsq x L).

Definition hvec (x : nat -> R) (L : nat) (k : nat) : R :=
  (match k with O => hfirst x L | _ => x k end) / hvnorm x L.

Definition refl (u : nat -> R) (L : nat) (y : nat -> R) (k : nat) : R :=
  y k - sum_range (fun l => y l * u l) 0 L * 2 * u k.

Close Scope R_scope.

(** [vk[0 .. len)] holds a real vector of Euclidean norm 1. *)
Definition unit_vector (vk : list dbl) (len : nat) : Prop :=
  (∀ l, l < len → ∃ r, vk !! l = Some (Fin r))
  ∧ sum_range (fun l => (getR vk l * getR vk l)%R) 0 len = 1%R.

(** What holds of the store after [i] non-degenerate iterations on the real
    matrix [A]. *)
Definition run_inv (A : list (list dbl)) (m n i : nat)
    (a v : list (list dbl)) : Prop :=
  columns_ok m n a ∧ vectors_ok m n v ∧ real_matrix m n a
  ∧ (∀ k, k < i → ∃ vk, v !! k = Some vk ∧ unit_vector vk (m - k)
                         ∧ ∃ w t, normalize w t (m - k) = Some vk)
  ∧ (∀ j r, j < i → j < r < m → entry a j r = Some (Fin 0))
  ∧ (∀ j, j < n → ∃ col, a !! j = Some col ∧ apply_Q v m i col = A !! j).

(** ** Worked inputs *)

(** A 3 by 2 matrix of full rank with the vector storage handed to the
    routine, and a 3 by 2 matrix whose second step is degenerate, with the
    store after its first iteration. *)
Definition example_A : list (list dbl) :=
  [[Fin 3; Fin 4; Fin 0]; [Fin 1; Fin 2; Fin 5]].

Definition example_V : list (list dbl) :=
  [[Fin 0; Fin 0; Fin 0]; [Fin 0; Fin 0]].

Definition example_V1 : list (list dbl) :=
  [[Fin 1; Fin 0; Fin 0]; [Fin 0; Fin 0]].

Definition example_D : list (list dbl) :=
  [[Fin 2; Fin 0; Fin 0]; [Fin 1; Fin 0; Fin 0]].

Definition example_D1 : list (list dbl) :=
  [[Fin (-2); Fin 0; Fin 0]; [Fin (-1); Fin 0; Fin 0]].

(** ** Vocabulary of the further properties *)





(** Lines 85-89: [v[i] = new double[m - i]]; the new arrays hold whatever
    the heap held, [heap i k] at [v[i][k]]. *)
Definition alloc_vectors (heap : nat → nat → dbl) (m n : nat)
    : list (list dbl) :=
  map (fun i => map (heap i) (seq 0 (m - i))) (seq 0 n).

(** [l[k]] for an [int] index: there is nothing before the array. *)
Definition lookupZ {A : Type} (l : list A) (k : Z) : option A :=
  if (k <? 0)%Z then None else l !! Z.to_nat k.

(** Lines 136-148: the values [x] the driver prints as the norms of
    [v_1 .. v_n], in the order printed. *)
Definition norm_check (v : list (list dbl)) (m n : Z) : option (list dbl) :=
  xs ← for_loop 1 (Z.to_nat (n - 1))
         (fun i xs => vi ← v !! (i - 1);
                      x ← dot_product vi vi (Z.to_nat (m - Z.of_nat i + 1));
                      Some (xs ++ [x]))
         [];
  vl ← lookupZ v (n - 1);
  x ← dot_product vl vl (Z.to_nat (m - n + 1));
  Some (xs ++ [x]).

Inductive run_outcome : Type :=
  | RunRejected
  | RunBadArrayLength
  | RunOutOfBounds
  | RunDone (R V : list (list dbl)) (norms : list dbl).

(** The driver from the dimension check to the last norm printed: the
    matrices and vectors it prints are read inside their arrays and are
    left out. *)
Definition main_run (heap : nat → nat → dbl) (m n : Z) : run_outcome :=
  match main m n with
  | Rejected => RunRejected
  | BadArrayLength => RunBadArrayLength
  | CallsHouseholder a m' n' =>
      match householder a (alloc_vectors heap m' n') m' n' with
      | None => RunOutOfBounds
      | Some (R, V) =>
          match norm_check V m n with
          | None => RunOutOfBounds
          | Some xs => RunDone R V xs
          end
      end
  end.



(** Storage larger than the routine needs: a fourth row, a third column,
    spare cells behind each vector and a third vector. *)
Definition example_big_A : list (list dbl) :=
  [[Fin 3; Fin 4; Fin 0; Fin 7]; [Fin 1; Fin 2; Fin 5; Fin 8];
   [Fin 9; Fin 9; Fin 9; Fin 9]].

Definition example_big_V : list (list dbl) :=
  [[Fin 0; Fin 0; Fin 0; Fin 6]; [Fin 0; Fin 0; Fin 6]; [Fin 6]].

(** A matrix with a NaN in it. *)
Definition example_N : list (list dbl) :=
  [[Fin 3; NaN; Fin 0]; [Fin 1; Fin 2; Fin 5]].

(** ** Arrays and loops: basic facts *)

Lemma write_Some {A : Type} (l : list A) (k : nat) (x : A) :
  k < length l → write l k x = Some (<[k:=x]> l).
Proof. intros H. unfold write. by rewrite decide_True. Qed.

Lemma for_loop_snoc {St : Type} (body : nat → St → option St) (cnt : nat) :
  ∀ k s, for_loop k (S cnt) body s
         = for_loop k cnt body s ≫= body (k + cnt).
Proof.
  induction cnt as [|c IH]; intros k s.
  - simpl. rewrite Nat.add_0_r. by destruct (body k s).
  - change (for_loop k (S (S c)) body s)
      with (body k s ≫= for_loop (S k) (S c) body).
    change (for_loop k (S c) body s) with (body k s ≫= for_loop (S k) c body).
    destruct (body k s) as [t|]; simpl; [|done].
    rewrite <- Nat.add_succ_comm. apply IH.
Qed.

(** The loop rule: an invariant kept by every pass of a body that never
    fails holds at the exit, and the loop does not fail. *)
Lemma for_loop_inv {St : Type} (P : nat → St → Prop)
    (body : nat → St → option St) (cnt : nat) :
  ∀ k s,
    P k s →
    (∀ j t, k ≤ j < k + cnt → P j t → ∃ t', body j t = Some t' ∧ P (S j) t') →
    ∃ s', for_loop k cnt body s = Some s' ∧ P (k + cnt) s'.
Proof.
  induction cnt as [|c IH]; intros k s HP Hstep.
  - exists s. rewrite Nat.add_0_r. done.
  - destruct (Hstep k s) as (t & Ht & HPt); [lia|done|].
    destruct (IH (S k) t HPt) as (s' & Hs' & HP').
    { intros j u Hj. apply Hstep. lia. }
    exists s'. simpl. rewrite Ht. simpl.
    split; [done|]. by rewrite <- Nat.add_succ_comm.
Qed.

Lemma lookup_getD (l : list dbl) (k : nat) :
  k < length l → l !! k = Some (getD l k).
Proof.
  intros H. unfold getD.
  destruct (lookup_lt_is_Some_2 l k H) as [d ->]. done.
Qed.

Lemma getD_Some (l : list dbl) (k : nat) (d : dbl) :
  l !! k = Some d → getD l k = d.
Proof. intros H. unfold getD. by rewrite H. Qed.

Lemma getR_Fin (l : list dbl) (k : nat) (r : R) :
  l !! k = Some (Fin r) → getR l k = r.
Proof. intros H. unfold getR. by rewrite H. Qed.

(** ** What each vector primitive does, entry by entry *)

Lemma partialvec_copy_spec (src dst : list dbl) (len off : nat) :
  off + len ≤ length src → len ≤ length dst →
  ∃ dst', partialvec_copy src dst len off = Some dst'
          ∧ length dst' = length dst
          ∧ (∀ k, k < len → dst' !! k = src !! (off + k))
          ∧ (∀ k, len ≤ k → dst' !! k = dst !! k).
Proof.
  intros Hsrc Hdst. unfold partialvec_copy.
  destruct (for_loop_inv
    (fun j d => length d = length dst
                ∧ (∀ k, k < j → d !! k = src !! (off + k))
                ∧ (∀ k, j ≤ k → d !! k = dst !! k))
    (fun k dst => x ← src !! (off + k); write dst k x) len 0 dst)
    as (d & Hd & Hlen & Hlo & Hhi).
  - split; [done|]. split; [intros; lia|done].
  - intros j t Hj (Hlen & Hlo & Hhi).
    destruct (lookup_lt_is_Some_2 src (off + j)) as [x Hx]; [lia|].
    exists (<[j:=x]> t). rewrite Hx. simpl.
    rewrite write_Some by lia.
    split; [done|]. split; [by rewrite length_insert|]. split.
    + intros k Hk. destruct (decide (k = j)) as [->|Hne].
      * rewrite list_lookup_insert_eq by lia. done.
      * rewrite list_lookup_insert_ne by done. apply Hlo. lia.
    + intros k Hk. rewrite list_lookup_insert_ne by lia. apply Hhi. lia.
  - exists d. done.
Qed.

Lemma dot_loop_spec (f g : nat → option dbl) (F : nat → dbl) (lo cnt : nat) :
  (∀ k, lo ≤ k < lo + cnt →
        ∃ x y, f k = Some x ∧ g k = Some y ∧ F k = dmul x y) →
  for_loop lo cnt
    (fun k acc => x ← f k; y ← g k; Some (dadd acc (dmul x y))) (Fin 0)
  = Some (dsum F lo cnt).
Proof.
  induction cnt as [|c IH]; intros H; [done|].
  rewrite for_loop_snoc, IH by (intros; apply H; lia). simpl.
  destruct (H (lo + c)) as (x & y & -> & -> & ->); [lia|]. done.
Qed.

Lemma partialdot_product_spec (u w : list dbl) (len skip : nat) :
  len ≤ length u → len ≤ length w →
  partialdot_product u w len skip
  = Some (dsum (fun k => dmul (getD u k) (getD w k)) skip (len - skip)).
Proof.
  intros Hu Hw. unfold partialdot_product.
  apply (dot_loop_spec (fun k => u !! k) (fun k => w !! k)).
  intros k Hk. exists (getD u k), (getD w k).
  rewrite !lookup_getD by lia. done.
Qed.

Lemma subdot_product_spec (u v : list dbl) (len off : nat) :
  off + len ≤ length u → len ≤ length v →
  subdot_product u v len off
  = Some (dsum (fun k => dmul (getD u (off + k)) (getD v k)) 0 len).
Proof.
  intros Hu Hv. unfold subdot_product.
  apply (dot_loop_spec (fun k => u !! (off + k)) (fun k => v !! k)).
  intros k Hk. exists (getD u (off + k)), (getD v k).
  rewrite !lookup_getD by lia. done.
Qed.


Lemma scalar_div_spec (v : list dbl) (c : dbl) (len : nat) :
  len ≤ length v →
  ∃ out, scalar_div v c len = Some out
         ∧ length out = length v
         ∧ (∀ k, k < len → out !! k = Some (ddiv (getD v k) c))
         ∧ (∀ k, len ≤ k → out !! k = v !! k).
Proof.
  intros Hv. unfold scalar_div.
  destruct (for_loop_inv
    (fun j d => length d = length v
                ∧ (∀ k, k < j → d !! k = Some (ddiv (getD v k) c))
                ∧ (∀ k, j ≤ k → d !! k = v !! k))
    (fun k out => x ← out !! k; write out k (ddiv x c)) len 0 v)
    as (d & Hd & Hlen & Hlo & Hhi).
  - split; [done|]. split; [intros; lia|done].
  - intros j t Hj (Hlen & Hlo & Hhi).
    exists (<[j:=ddiv (getD v j) c]> t).
    rewrite Hhi, lookup_getD by lia. simpl.
    rewrite write_Some by lia.
    split; [done|]. split; [by rewrite length_insert|]. split.
    + intros k Hk. destruct (decide (k = j)) as [->|Hne].
      * rewrite list_lookup_insert_eq by lia. done.
      * rewrite list_lookup_insert_ne by done. apply Hlo. lia.
    + intros k Hk. rewrite list_lookup_insert_ne by lia. apply Hhi. lia.
  - exists d. done.
Qed.

Lemma partialscalar_sub_spec (v : list dbl) (coef : dbl) (len off : nat)
    (io : list dbl) :
  len ≤ length v → off + len ≤ length io →
  ∃ io', partialscalar_sub v coef len off io = Some io'
         ∧ length io' = length io
         ∧ (∀ k, k < len →
                 io' !! (off + k)
                 = Some (dsub (getD io (off + k)) (dmul coef (getD v k))))
         ∧ (∀ r, r < off ∨ off + len ≤ r → io' !! r = io !! r).
Proof.
  intros Hv Hio. unfold partialscalar_sub.
  destruct (for_loop_inv
    (fun j d => length d = length io
                ∧ (∀ k, k < j →
                        d !! (off + k)
                        = Some (dsub (getD io (off + k)) (dmul coef (getD v k))))
                ∧ (∀ r, r < off ∨ off + j ≤ r → d !! r = io !! r))
    (fun k io => x ← v !! k; y ← io !! (off + k);
                 write io (off + k) (dsub y (dmul coef x))) len 0 io)
    as (d & Hd & Hlen & Hlo & Hhi).
  - split; [done|]. split; [intros; lia|done].
  - intros j t Hj (Hlen & Hlo & Hhi).
    exists (<[off + j:=dsub (getD io (off + j)) (dmul coef (getD v j))]> t).
    rewrite (lookup_getD v j) by lia. simpl.
    rewrite Hhi, lookup_getD by lia. simpl.
    rewrite write_Some by lia.
    split; [done|]. split; [by rewrite length_insert|]. split.
    + intros k Hk. destruct (decide (k = j)) as [->|Hne].
      * rewrite list_lookup_insert_eq by lia. done.
      * rewrite list_lookup_insert_ne by lia. apply Hlo. lia.
    + intros r Hr. rewrite list_lookup_insert_ne by lia. apply Hhi. lia.
  - exists d. done.
Qed.

Lemma dsum_ext (f g : nat → dbl) (lo cnt : nat) :
  (∀ k, lo ≤ k < lo + cnt → f k = g k) → dsum f lo cnt = dsum g lo cnt.
Proof.
  induction cnt as [|c IH]; intros H; [done|].
  simpl. rewrite IH by (intros; apply H; lia).
  rewrite (H (lo + c)) by lia. done.
Qed.

Lemma dsum_Fin (f : nat → dbl) (g : nat → R) (lo cnt : nat) :
  (∀ k, lo ≤ k < lo + cnt → f k = Fin (g k)) →
  dsum f lo cnt = Fin (sum_range g lo cnt).
Proof.
  induction cnt as [|c IH]; intros H; [done|].
  simpl. rewrite IH by (intros; apply H; lia).
  rewrite (H (lo + c)) by lia. done.
Qed.

Lemma dsub_NaN_r (x : dbl) : dsub x NaN = NaN.
Proof. by destruct x. Qed.

Lemma dmul_NaN_r (x : dbl) : dmul x NaN = NaN.
Proof. by destruct x. Qed.

(** ** The two halves of an iteration, on doubles *)

Lemma reflect_column_spec (vi : list dbl) (m i : nat) (aj : list dbl) :
  i ≤ m → m ≤ length aj → m - i ≤ length vi →
  ∃ aj', reflect_column vi m i aj = Some aj'
         ∧ length aj' = length aj
         ∧ (∀ k, k < m - i →
              aj' !! (i + k)
              = Some (dsub (getD aj (i + k))
                        (dmul (dmul (dsum (fun l => dmul (getD aj (i + l))
                                                         (getD vi l))
                                          0 (m - i))
                                    (Fin 2))
                              (getD vi k))))
         ∧ (∀ r, r < i ∨ m ≤ r → aj' !! r = aj !! r).
Proof.
  intros Him Haj Hvi. unfold reflect_column.
  rewrite subdot_product_spec by lia. simpl.
  destruct (partialscalar_sub_spec vi
              (dmul (dsum (fun l => dmul (getD aj (i + l)) (getD vi l))
                          0 (m - i)) (Fin 2))
              (m - i) i aj) as (aj' & -> & Hlen & Hin & Hout); [lia..|].
  exists aj'. split; [done|]. split; [done|]. split; [done|].
  intros r Hr. apply Hout. lia.
Qed.

Lemma reflection_vector_spec (ai vi : list dbl) (m i : nat) :
  i < m → m ≤ length ai → m - i ≤ length vi →
  let x := fun k => getD ai (i + k) in
  let t := dsum (fun k => dmul (x k) (x k)) 1 (m - i - 1) in
  let nx := dsqrt (dadd (dmul (x 0) (x 0)) t) in
  let w0 := if dlt (x 0) (Fin 0) then dsub (x 0) nx else dadd (x 0) nx in
  let nw := dsqrt (dadd (dmul w0 w0) t) in
  ∃ V, reflection_vector ai vi m i = Some V
       ∧ length V = length vi
       ∧ V !! 0 = Some (ddiv w0 nw)
       ∧ (∀ k, 0 < k < m - i → V !! k = Some (ddiv (x k) nw))
       ∧ (∀ k, m - i ≤ k → V !! k = vi !! k).
Proof.
  intros Him Hai Hvi x t nx w0 nw. unfold reflection_vector.
  destruct (partialvec_copy_spec ai vi (m - i) i)
    as (v0 & -> & Hlen0 & Hin0 & Hout0); [lia..|]. simpl.
  assert (Hx : ∀ k, k < m - i → getD v0 k = x k).
  { intros k Hk. unfold x. apply getD_Some.
    rewrite Hin0 by done. apply lookup_getD. lia. }
  rewrite partialdot_product_spec by lia. simpl.
  rewrite (dsum_ext _ (fun k => dmul (x k) (x k)))
    by (intros k Hk; rewrite Hx by lia; done).
  fold t. unfold set_first_entry.
  rewrite (lookup_getD v0 0), (Hx 0) by lia. simpl.
  assert (Hw : (if dlt (x 0) (Fin 0)
                then write v0 0 (dsub (x 0) (dsqrt (dadd (dmul (x 0) (x 0)) t)))
                else write v0 0 (dadd (x 0) (dsqrt (dadd (dmul (x 0) (x 0)) t))))
               = Some (<[0:=w0]> v0)).
  { unfold w0, nx. destruct (dlt (x 0) (Fin 0)); apply write_Some; lia. }
  rewrite Hw. simpl. unfold normalize.
  rewrite list_lookup_insert_eq by lia. simpl. fold nw.
  destruct (scalar_div_spec (<[0:=w0]> v0) nw (m - i))
    as (V & -> & HlenV & HinV & HoutV); [rewrite length_insert; lia|].
  exists V. split; [done|]. rewrite length_insert in HlenV.
  split; [lia|]. split; [|split].
  - rewrite HinV by lia. f_equal. f_equal. apply getD_Some.
    apply list_lookup_insert_eq. lia.
  - intros k Hk. rewrite HinV by lia. f_equal. f_equal.
    rewrite <- Hx by lia. unfold getD.
    rewrite list_lookup_insert_ne by lia. done.
  - intros k Hk. rewrite HoutV by done.
    rewrite list_lookup_insert_ne by lia. apply Hout0. done.
Qed.

Lemma householder_iter_spec (m n i : nat) (a v : list (list dbl)) :
  i < n → n ≤ m → columns_ok m n a → vectors_ok m n v →
  ∃ ai vi V a',
    a !! i = Some ai ∧ v !! i = Some vi
    ∧ reflection_vector ai vi m i = Some V
    ∧ length V = length vi
    ∧ householder_iter m n i (a, v) = Some (a', <[i:=V]> v)
    ∧ length a' = length a
    ∧ (∀ j, j < i ∨ n ≤ j → a' !! j = a !! j)
    ∧ (∀ j, i ≤ j < n →
         ∃ aj aj', a !! j = Some aj
                   ∧ reflect_column V m i aj = Some aj'
                   ∧ length aj' = length aj
                   ∧ a' !! j = Some aj').
Proof.
  intros Hin Hnm Ha Hv.
  destruct (Ha i Hin) as (ai & Hai & Hlai).
  destruct (Hv i Hin) as (vi & Hvi & Hlvi).
  destruct (reflection_vector_spec ai vi m i) as (V & HV & HlV & _);
    [lia..|].
  destruct (for_loop_inv
    (fun j c => length c = length a
                ∧ (∀ j', j' < i ∨ j ≤ j' → c !! j' = a !! j')
                ∧ (∀ j', i ≤ j' < j →
                     ∃ aj aj', a !! j' = Some aj
                               ∧ reflect_column V m i aj = Some aj'
                               ∧ length aj' = length aj
                               ∧ c !! j' = Some aj'))
    (fun j a => aj ← a !! j; aj ← reflect_column V m i aj; write a j aj)
    (n - i) i a) as (a' & Hloop & Hlen & Hout & Hmid).
  - split; [done|]. split; [done|]. intros; lia.
  - intros j c Hj (Hlen & Hout & Hmid).
    destruct (Ha j) as (aj & Haj & Hlaj); [lia|].
    destruct (reflect_column_spec V m i aj) as (aj' & Hr & Hlaj' & _);
      [lia..|].
    exists (<[j:=aj']> c). rewrite Hout, Haj by lia. simpl.
    rewrite Hr. simpl.
    assert (j < length a) by (eapply (lookup_lt_Some a j); done).
    rewrite write_Some by lia.
    split; [done|]. split; [by rewrite length_insert|]. split.
    + intros j' Hj'. rewrite list_lookup_insert_ne by lia. apply Hout. lia.
    + intros j' Hj'. destruct (decide (j' = j)) as [->|Hne].
      * exists aj, aj'. rewrite list_lookup_insert_eq by lia. done.
      * rewrite list_lookup_insert_ne by done. apply Hmid. lia.
  - exists ai, vi, V, a'. unfold householder_iter.
    rewrite Hai, Hvi. simpl. rewrite HV. simpl.
    assert (i < length v) by (eapply (lookup_lt_Some v i); done).
    rewrite write_Some by done. simpl. rewrite Hloop. simpl.
    replace (i + (n - i)) with n in * by lia.
    repeat (split; [done|]). done.
Qed.

Lemma householder_iter_shape (m n i : nat) (a v a' v' : list (list dbl)) :
  i < n → n ≤ m → columns_ok m n a → vectors_ok m n v →
  householder_iter m n i (a, v) = Some (a', v') →
  columns_ok m n a' ∧ vectors_ok m n v'
  ∧ length a' = length a ∧ length v' = length v.
Proof.
  intros Hin Hnm Ha Hv Hit.
  destruct (householder_iter_spec m n i a v Hin Hnm Ha Hv)
    as (ai & vi & V & a1 & Hai & Hvi & HV & HlV & Hit' & Hlen & Hout & Hmid).
  rewrite Hit' in Hit. injection Hit as <- <-.
  split; [|split; [|split; [done|by rewrite length_insert]]].
  - intros j Hj. destruct (decide (j < i)) as [Hlt|Hge].
    + rewrite Hout by lia. by apply Ha.
    + destruct (Hmid j) as (aj & aj' & Haj & _ & Hl & ->); [lia|].
      exists aj'. split; [done|].
      destruct (Ha j Hj) as (c & Hc & Hlc). simplify_eq. lia.
  - intros k Hk. destruct (decide (k = i)) as [->|Hne].
    + exists V. rewrite list_lookup_insert_eq
        by (eapply (lookup_lt_Some v i); done).
      split; [done|]. destruct (Hv i Hin) as (c & Hc & Hlc). simplify_eq. lia.
    + rewrite list_lookup_insert_ne by done. by apply Hv.
Qed.

Lemma householder_upto_S (a v : list (list dbl)) (m n i : nat) :
  householder_upto a v m n (S i)
  = householder_upto a v m n i ≫= householder_iter m n i.
Proof. unfold householder_upto. by rewrite for_loop_snoc. Qed.

(** Below the storage contract no step of the run leaves its arrays, and
    every step keeps the contract. *)
Lemma householder_upto_safe (a v : list (list dbl)) (m n : nat) :
  n ≤ m → columns_ok m n a → vectors_ok m n v →
  ∀ i, i ≤ n →
    ∃ a' v', householder_upto a v m n i = Some (a', v')
             ∧ columns_ok m n a' ∧ vectors_ok m n v'
             ∧ length a' = length a ∧ length v' = length v.
Proof.
  intros Hnm Ha Hv. induction i as [|i IH]; intros Hi.
  - exists a, v. done.
  - destruct IH as (a1 & v1 & Hup & Ha1 & Hv1 & Hl1 & Hl2); [lia|].
    destruct (householder_iter_spec m n i a1 v1)
      as (ai & vi & V & a2 & _ & _ & _ & _ & Hit & _); [lia|done..|].
    destruct (householder_iter_shape m n i a1 v1 a2 (<[i:=V]> v1))
      as (Ha2 & Hv2 & Hl3 & Hl4); [lia|done..|].
    exists a2, (<[i:=V]> v1). rewrite householder_upto_S, Hup. simpl.
    split; [done|]. split; [done|]. split; [done|]. split; congruence.
Qed.

(** ** Sums over index ranges *)

Section Sums.
Local Open Scope R_scope.

Lemma sum_range_ext (f g : nat → R) (lo cnt : nat) :
  (∀ k, (lo ≤ k < lo + cnt)%nat → f k = g k) →
  sum_range f lo cnt = sum_range g lo cnt.
Proof.
  induction cnt as [|c IH]; intros H; [done|].
  simpl. rewrite IH by (intros; apply H; lia).
  rewrite (H (lo + c)%nat) by lia. done.
Qed.

Lemma sum_range_first (f : nat → R) (lo cnt : nat) :
  sum_range f lo (S cnt) = f lo + sum_range f (S lo) cnt.
Proof.
  induction cnt as [|c IH].
  - simpl. rewrite Nat.add_0_r. lra.
  - change (sum_range f lo (S (S c)))
      with (sum_range f lo (S c) + f (lo + S c)%nat).
    rewrite IH.
    change (sum_range f (S lo) (S c))
      with (sum_range f (S lo) c + f (S lo + c)%nat).
    replace (S lo + c)%nat with (lo + S c)%nat by lia. lra.
Qed.

Lemma sum_range_scal (c : R) (f : nat → R) (lo cnt : nat) :
  sum_range (fun k => c * f k) lo cnt = c * sum_range f lo cnt.
Proof. induction cnt as [|n IH]; simpl; [lra|]. rewrite IH. lra. Qed.

Lemma sum_range_minus (f g : nat → R) (lo cnt : nat) :
  sum_range (fun k => f k - g k) lo cnt
  = sum_range f lo cnt - sum_range g lo cnt.
Proof. induction cnt as [|n IH]; simpl; [lra|]. rewrite IH. lra. Qed.

Lemma sum_range_zero (f : nat → R) (lo cnt : nat) :
  (∀ k, (lo ≤ k < lo + cnt)%nat → f k = 0) → sum_range f lo cnt = 0.
Proof.
  induction cnt as [|c IH]; intros H; [done|].
  simpl. rewrite IH by (intros; apply H; lia).
  rewrite (H (lo + c)%nat) by lia. lra.
Qed.

Lemma sum_range_sq_nonneg (x : nat → R) (lo cnt : nat) :
  0 <= sum_range (fun k => x k * x k) lo cnt.
Proof.
  induction cnt as [|c IH]; simpl; [lra|].
  pose proof (Rle_0_sqr (x (lo + c)%nat)) as H. unfold Rsqr in H. lra.
Qed.

Lemma sum_range_sq_zero (x : nat → R) (lo cnt : nat) :
  sum_range (fun k => x k * x k) lo cnt = 0 →
  ∀ k, (lo ≤ k < lo + cnt)%nat → x k = 0.
Proof.
  induction cnt as [|c IH]; intros H k Hk; [lia|].
  simpl in H.
  pose proof (sum_range_sq_nonneg x lo c) as H1.
  pose proof (Rle_0_sqr (x (lo + c)%nat)) as H2. unfold Rsqr in H2.
  destruct (decide (k = lo + c)%nat) as [->|Hne].
  - apply Rsqr_0_uniq. unfold Rsqr. lra.
  - apply IH; [lra|lia].
Qed.

(** The list view and the index view of a sum of squares agree. *)
Lemma sum_range_sumsq (x : nat → R) (xs : list R) :
  ∀ lo, (∀ k r, xs !! k = Some r → x (lo + k)%nat = r) →
        sum_range (fun k => x k * x k) lo (length xs) = sumsq xs.
Proof.
  induction xs as [|r xs IH]; intros lo H; [done|].
  simpl length. rewrite sum_range_first. simpl.
  rewrite <- (H O r) by done. rewrite Nat.add_0_r.
  rewrite (IH (S lo)); [done|].
  intros k z Hk. replace (S lo + k)%nat with (lo + S k)%nat by lia.
  by apply H.
Qed.
End Sums.

(** ** The algebra of one Householder reflection *)

Section Reflection.
Local Open Scope R_scope.
Variable x : nat → R.
Variable L : nat.
Hypothesis HL : (1 ≤ L)%nat.

Lemma tailsq_nonneg : 0 <= tailsq x L.
Proof. apply sum_range_sq_nonneg. Qed.

Lemma sum_range_head (f : nat → R) :
  sum_range f 0 L = f O + sum_range f 1 (L - 1).
Proof.
  destruct L as [|L']; [lia|]. rewrite sum_range_first.
  replace (S L' - 1)%nat with L' by lia. done.
Qed.

Lemma hnorm_sqr : hnorm x L * hnorm x L = x O * x O + tailsq x L.
Proof.
  unfold hnorm. apply sqrt_sqrt.
  pose proof tailsq_nonneg. pose proof (Rle_0_sqr (x O)) as H1.
  unfold Rsqr in H1. lra.
Qed.

Lemma hnorm_nonneg : 0 <= hnorm x L.
Proof. apply sqrt_pos. Qed.

Lemma hvnorm_sqr :
  hvnorm x L * hvnorm x L = hfirst x L * hfirst x L + tailsq x L.
Proof.
  unfold hvnorm. apply sqrt_sqrt.
  pose proof tailsq_nonneg. pose proof (Rle_0_sqr (hfirst x L)) as H1.
  unfold Rsqr in H1. lra.
Qed.

Lemma hfirst_sgn : hfirst x L = x O + sgn (x O) * hnorm x L.
Proof. unfold hfirst, sgn. destruct (Rlt_dec (x O) 0); lra. Qed.

(** The norm of the unnormalised vector vanishes only on the zero
    vector. *)
Lemma hvnorm_zero_inv :
  hvnorm x L = 0 → ∀ k, (k < L)%nat → x k = 0.
Proof.
  intros H0.
  pose proof hvnorm_sqr as Hsq. rewrite H0 in Hsq.
  pose proof tailsq_nonneg as Ht.
  pose proof (Rle_0_sqr (hfirst x L)) as Hw. unfold Rsqr in Hw.
  assert (Ht0 : tailsq x L = 0) by lra.
  assert (Hw0 : hfirst x L = 0).
  { apply Rsqr_0_uniq. unfold Rsqr. lra. }
  assert (Hx0 : x O = 0).
  { pose proof hnorm_nonneg as Hn. unfold hfirst in Hw0.
    destruct (Rlt_dec (x O) 0); lra. }
  intros k Hk. destruct k as [|k]; [done|].
  apply (sum_range_sq_zero x 1 (L - 1)); [exact Ht0|lia].
Qed.

Lemma hvnorm_zero :
  (∀ k, (k < L)%nat → x k = 0) → hvnorm x L = 0.
Proof.
  intros H.
  assert (Ht0 : tailsq x L = 0).
  { unfold tailsq. apply sum_range_zero. intros k Hk.
    rewrite H by lia. lra. }
  assert (Hn : hnorm x L = 0).
  { unfold hnorm. rewrite Ht0, H by lia.
    replace (0 * 0 + 0) with 0 by lra. apply sqrt_0. }
  assert (Hw : hfirst x L = 0).
  { unfold hfirst. rewrite Hn, H by lia. destruct (Rlt_dec 0 0); lra. }
  unfold hvnorm. rewrite Hw, Ht0.
  replace (0 * 0 + 0) with 0 by lra. apply sqrt_0.
Qed.

Hypothesis Hnz : hvnorm x L ≠ 0.

Lemma hvec_unit :
  sum_range (fun k => hvec x L k * hvec x L k) 0 L = 1.
Proof.
  rewrite (sum_range_ext _
    (fun k => / (hvnorm x L * hvnorm x L)
              * ((match k with O => hfirst x L | _ => x k end)
                 * (match k with O => hfirst x L | _ => x k end)))).
  2:{ intros k _. unfold hvec. field. done. }
  rewrite sum_range_scal.
  rewrite sum_range_head.
  rewrite (sum_range_ext _ (fun k => x k * x k) 1).
  2:{ intros k Hk. destruct k; [lia|done]. }
  fold (tailsq x L). rewrite <- hvnorm_sqr. field. done.
Qed.

Lemma dot_hvec :
  sum_range (fun l => x l * hvec x L l) 0 L
  = (x O * hfirst x L + tailsq x L) / hvnorm x L.
Proof.
  rewrite (sum_range_ext _
    (fun k => / hvnorm x L
              * (x k * match k with O => hfirst x L | _ => x k end))).
  2:{ intros k _. unfold hvec. field. done. }
  rewrite sum_range_scal.
  rewrite sum_range_head.
  rewrite (sum_range_ext _ (fun k => x k * x k) 1).
  2:{ intros k Hk. destruct k; [lia|done]. }
  fold (tailsq x L). field. done.
Qed.

Lemma hvnorm_twice :
  hvnorm x L * hvnorm x L = 2 * (x O * hfirst x L + tailsq x L).
Proof.
  rewrite hvnorm_sqr. pose proof hnorm_sqr as Hn.
  unfold hfirst. destruct (Rlt_dec (x O) 0); nra.
Qed.

(** Reflecting the vector itself leaves [-sign(x0) ||x||] in front and
    zeros behind. *)
Lemma refl_self (k : nat) :
  refl (hvec x L) L x k
  = match k with O => - sgn (x O) * hnorm x L | _ => 0 end.
Proof.
  unfold refl. rewrite dot_hvec. unfold hvec.
  set (w := match k with O => hfirst x L | _ => x k end).
  replace ((x O * hfirst x L + tailsq x L) / hvnorm x L * 2 * (w / hvnorm x L))
    with (w * (2 * (x O * hfirst x L + tailsq x L))
          / (hvnorm x L * hvnorm x L)) by (field; done).
  rewrite <- hvnorm_twice.
  replace (w * (hvnorm x L * hvnorm x L) / (hvnorm x L * hvnorm x L))
    with w by (field; done).
  unfold w. destruct k; [|lra]. rewrite hfirst_sgn. lra.
Qed.

Lemma hnorm_pos : 0 < hnorm x L.
Proof.
  pose proof hnorm_nonneg as Hn.
  destruct (Req_dec_T (hnorm x L) 0) as [H0|H0]; [|lra].
  exfalso. apply Hnz.
  pose proof hnorm_sqr as Hsq. rewrite H0 in Hsq.
  pose proof tailsq_nonneg as Ht.
  pose proof (Rle_0_sqr (x O)) as Hx. unfold Rsqr in Hx.
  assert (Hx0 : x O = 0) by (apply Rsqr_0_uniq; unfold Rsqr; lra).
  assert (Hw : hfirst x L = 0).
  { unfold hfirst. rewrite H0, Hx0. destruct (Rlt_dec 0 0); lra. }
  unfold hvnorm. rewrite Hw.
  replace (0 * 0 + tailsq x L) with 0 by lra. apply sqrt_0.
Qed.
End Reflection.

Section Involution.
Local Open Scope R_scope.
Variable u : nat → R.
Variable L : nat.

Lemma refl_zero (y : nat → R) (k : nat) :
  (∀ l, (l < L)%nat → y l = 0) → refl u L y k = y k.
Proof.
  intros H. unfold refl.
  rewrite (sum_range_zero (fun l => y l * u l)).
  - lra.
  - intros l Hl. rewrite H by lia. lra.
Qed.

Hypothesis Hunit : sum_range (fun k => u k * u k) 0 L = 1.

(** A reflection by a unit vector undoes itself. *)
Lemma refl_involutive (y : nat → R) (k : nat) :
  refl u L (refl u L y) k = y k.
Proof.
  unfold refl at 1.
  rewrite (sum_range_ext (fun l => refl u L y l * u l)
    (fun l => y l * u l
              - sum_range (fun l' => y l' * u l') 0 L * 2 * (u l * u l))).
  2:{ intros l _. unfold refl. lra. }
  rewrite sum_range_minus, sum_range_scal, Hunit. unfold refl. lra.
Qed.
End Involution.

(** ** The two halves of an iteration, on real data *)

Lemma dsqrt_Fin (r : R) : (0 <= r)%R → dsqrt (Fin r) = Fin (sqrt r).
Proof. intros H. unfold dsqrt. destruct (Rlt_dec r 0); [lra|done]. Qed.

Lemma ddiv_Fin (a b : R) : b ≠ 0%R → ddiv (Fin a) (Fin b) = Fin (a / b).
Proof. intros H. unfold ddiv. destruct (Req_dec_T b 0); done. Qed.

Lemma ddiv_zero (a : R) : ddiv (Fin a) (Fin 0) = NaN.
Proof. unfold ddiv. destruct (Req_dec_T 0 0); done. Qed.

(** The vector left in [v[i]] is what the normalisation step returns. *)
Lemma reflection_vector_normalized (ai vi V : list dbl) (m i : nat) :
  reflection_vector ai vi m i = Some V →
  ∃ w t, normalize w t (m - i) = Some V.
Proof.
  unfold reflection_vector. intros H.
  destruct (partialvec_copy ai vi (m - i) i) as [v0|]; simpl in H; [|done].
  destruct (partialdot_product v0 v0 (m - i) 1) as [t|]; simpl in H; [|done].
  destruct (set_first_entry v0 t) as [w|]; simpl in H; [|done].
  by exists w, t.
Qed.

Lemma reflection_vector_real_gen (ai vi : list dbl) (m i : nat)
    (x : nat → R) :
  i < m → m ≤ length ai → m - i ≤ length vi →
  (∀ k, k < m - i → ai !! (i + k) = Some (Fin (x k))) →
  ∃ V, reflection_vector ai vi m i = Some V
       ∧ length V = length vi
       ∧ (∀ k, k < m - i →
            V !! k = Some (ddiv (Fin (match k with
                                      | O => hfirst x (m - i)
                                      | _ => x k
                                      end))
                                (Fin (hvnorm x (m - i)))))
       ∧ (∀ k, m - i ≤ k → V !! k = vi !! k).
Proof.
  intros Him Hai Hvi Hx.
  pose proof (reflection_vector_spec ai vi m i Him Hai Hvi) as H.
  cbv beta zeta in H.
  assert (Ex : ∀ k, k < m - i → getD ai (i + k) = Fin (x k)).
  { intros k Hk. apply getD_Some. by apply Hx. }
  assert (Et : dsum (fun k => dmul (getD ai (i + k)) (getD ai (i + k)))
                 1 (m - i - 1) = Fin (tailsq x (m - i))).
  { apply dsum_Fin. intros k Hk. rewrite Ex by lia. done. }
  rewrite Et, (Ex 0) in H by lia. cbn [dmul dadd] in H.
  pose proof (tailsq_nonneg x (m - i)) as Ht.
  assert (Hsq : ∀ z : R, (0 <= z * z + tailsq x (m - i))%R).
  { intros z. pose proof (Rle_0_sqr z) as Hz. unfold Rsqr in Hz. lra. }
  rewrite (dsqrt_Fin _ (Hsq (x 0))) in H.
  fold (hnorm x (m - i)) in H. cbn [dsub dadd] in H.
  assert (Ew : (if dlt (Fin (x 0)) (Fin 0)
                then Fin (x 0 - hnorm x (m - i))
                else Fin (x 0 + hnorm x (m - i)))
               = Fin (hfirst x (m - i))).
  { unfold dlt, hfirst. destruct (Rlt_dec (x 0) 0); done. }
  rewrite Ew in H. cbn [dmul dadd] in H.
  rewrite (dsqrt_Fin _ (Hsq (hfirst x (m - i)))) in H.
  fold (hvnorm x (m - i)) in H.
  destruct H as (V & HV & Hl & H0 & Hk & Hout).
  exists V. split; [done|]. split; [done|]. split; [|done].
  intros [|k] Hlt; [done|]. rewrite Hk by lia. by rewrite Ex.
Qed.

Lemma reflection_vector_real (ai vi : list dbl) (m i : nat) (x : nat → R) :
  i < m → m ≤ length ai → m - i ≤ length vi →
  (∀ k, k < m - i → ai !! (i + k) = Some (Fin (x k))) →
  hvnorm x (m - i) ≠ 0%R →
  ∃ V, reflection_vector ai vi m i = Some V
       ∧ length V = length vi
       ∧ (∀ k, k < m - i → V !! k = Some (Fin (hvec x (m - i) k)))
       ∧ (∀ k, m - i ≤ k → V !! k = vi !! k).
Proof.
  intros Him Hai Hvi Hx Hnz.
  destruct (reflection_vector_real_gen ai vi m i x Him Hai Hvi Hx)
    as (V & HV & Hl & Hin & Hout).
  exists V. split; [done|]. split; [done|]. split; [|done].
  intros k Hk. rewrite Hin by done. rewrite ddiv_Fin by done. done.
Qed.

(** On an all-zero active sub-column the norm is zero and every entry of
    the vector is the quotient 0/0. *)
Lemma reflection_vector_zero (ai vi : list dbl) (m i : nat) :
  i < m → m ≤ length ai → m - i ≤ length vi →
  (∀ k, k < m - i → ai !! (i + k) = Some (Fin 0)) →
  ∃ V, reflection_vector ai vi m i = Some V
       ∧ length V = length vi
       ∧ (∀ k, k < m - i → V !! k = Some NaN)
       ∧ (∀ k, m - i ≤ k → V !! k = vi !! k).
Proof.
  intros Him Hai Hvi Hx.
  destruct (reflection_vector_real_gen ai vi m i (fun _ => 0%R)
              Him Hai Hvi Hx) as (V & HV & Hl & Hin & Hout).
  exists V. split; [done|]. split; [done|]. split; [|done].
  intros k Hk. rewrite Hin by done.
  rewrite (hvnorm_zero (fun _ => 0%R) (m - i)) by first [lia | intros; reflexivity].
  by rewrite ddiv_zero.
Qed.

Lemma reflect_column_real (V : list dbl) (m i : nat) (aj : list dbl)
    (u y : nat → R) :
  i ≤ m → m ≤ length aj → m - i ≤ length V →
  (∀ k, k < m - i → V !! k = Some (Fin (u k))) →
  (∀ k, k < m - i → aj !! (i + k) = Some (Fin (y k))) →
  ∃ aj', reflect_column V m i aj = Some aj'
         ∧ length aj' = length aj
         ∧ (∀ k, k < m - i →
              aj' !! (i + k) = Some (Fin (refl u (m - i) y k)))
         ∧ (∀ r, r < i ∨ m ≤ r → aj' !! r = aj !! r).
Proof.
  intros Him Haj HV Hu Hy.
  destruct (reflect_column_spec V m i aj Him Haj HV)
    as (aj' & Hr & Hl & Hin & Hout).
  exists aj'. split; [done|]. split; [done|]. split; [|done].
  intros k Hk. rewrite Hin by done.
  rewrite (dsum_Fin _ (fun l => (y l * u l)%R)).
  2:{ intros l Hl'. rewrite (getD_Some aj (i + l) (Fin (y l))) by (apply Hy; lia).
      rewrite (getD_Some V l (Fin (u l))) by (apply Hu; lia). done. }
  rewrite (getD_Some aj (i + k) (Fin (y k))) by (apply Hy; lia).
  rewrite (getD_Some V k (Fin (u k))) by (apply Hu; lia).
  done.
Qed.

(** A vector of NaN turns the rows it is applied to into NaN. *)
Lemma reflect_column_NaN (V : list dbl) (m i : nat) (aj : list dbl) :
  i ≤ m → m ≤ length aj → m - i ≤ length V →
  (∀ k, k < m - i → V !! k = Some NaN) →
  ∃ aj', reflect_column V m i aj = Some aj'
         ∧ length aj' = length aj
         ∧ (∀ r, i ≤ r < m → aj' !! r = Some NaN)
         ∧ (∀ r, r < i ∨ m ≤ r → aj' !! r = aj !! r).
Proof.
  intros Him Haj HV Hnan.
  destruct (reflect_column_spec V m i aj Him Haj HV)
    as (aj' & Hr & Hl & Hin & Hout).
  exists aj'. split; [done|]. split; [done|]. split; [|done].
  intros r Hr'. replace r with (i + (r - i)) by lia.
  rewrite Hin by lia.
  rewrite (getD_Some V (r - i) NaN) by (apply Hnan; lia).
  by rewrite dmul_NaN_r, dsub_NaN_r.
Qed.

(** The reflector of a real unit vector undoes itself on a real column. *)
Lemma reflect_column_involutive (V : list dbl) (m i : nat)
    (aj aj' : list dbl) (u : nat → R) :
  i ≤ m → m ≤ length aj → m - i ≤ length V →
  (∀ k, k < m - i → V !! k = Some (Fin (u k))) →
  sum_range (fun k => (u k * u k)%R) 0 (m - i) = 1%R →
  (∀ r, i ≤ r < m → ∃ z, aj !! r = Some (Fin z)) →
  reflect_column V m i aj = Some aj' →
  reflect_column V m i aj' = Some aj.
Proof.
  intros Him Haj HV Hu Hunit Hreal Hr.
  set (y := fun k => getR aj (i + k)).
  assert (Hy : ∀ k, k < m - i → aj !! (i + k) = Some (Fin (y k))).
  { intros k Hk. destruct (Hreal (i + k)) as [z Hz]; [lia|].
    unfold y. by rewrite (getR_Fin _ _ _ Hz). }
  destruct (reflect_column_real V m i aj u y Him Haj HV Hu Hy)
    as (b & Hb & Hlb & Hinb & Houtb).
  rewrite Hb in Hr. injection Hr as <-.
  destruct (reflect_column_real V m i b u (refl u (m - i) y))
    as (c & Hc & Hlc & Hinc & Houtc); [lia..|done|done|].
  rewrite Hc. f_equal. apply list_eq. intros r.
  destruct (decide (i ≤ r < m)) as [Hin|Hout].
  - replace r with (i + (r - i)) by lia.
    rewrite Hinc, Hy by lia. by rewrite refl_involutive.
  - rewrite Houtc, Houtb by lia. done.
Qed.

(** A reflector leaves a column alone whose rows [i .. m) are all zero. *)
Lemma reflect_column_zero_rows (V : list dbl) (m i : nat) (aj : list dbl)
    (u : nat → R) :
  i ≤ m → m ≤ length aj → m - i ≤ length V →
  (∀ k, k < m - i → V !! k = Some (Fin (u k))) →
  (∀ r, i ≤ r < m → aj !! r = Some (Fin 0)) →
  reflect_column V m i aj = Some aj.
Proof.
  intros Him Haj HV Hu Hz.
  destruct (reflect_column_real V m i aj u (fun _ => 0%R))
    as (b & Hb & Hlb & Hinb & Houtb); [lia..|done| |].
  { intros k Hk. apply Hz. lia. }
  rewrite Hb. f_equal. apply list_eq. intros r.
  destruct (decide (i ≤ r < m)) as [Hin|Hout].
  - replace r with (i + (r - i)) by lia.
    rewrite Hinb by lia. rewrite refl_zero by done. symmetry. apply Hz. lia.
  - apply Houtb. lia.
Qed.

(** On real data the update the routine applies to a column is the
    reflector [I - 2 v v^T] of the specification. *)
Lemma reflector_reflect_column (V : list dbl) (m i : nat)
    (aj aj' : list dbl) (u : nat → R) :
  i ≤ m → m ≤ length aj → m - i ≤ length V →
  (∀ k, k < m - i → V !! k = Some (Fin (u k))) →
  (∀ r, i ≤ r < m → ∃ z, aj !! r = Some (Fin z)) →
  reflect_column V m i aj = Some aj' →
  reflector V m i aj = aj'.
Proof.
  intros Him Haj HV Hu Hreal Hr.
  set (y := fun k => getR aj (i + k)).
  assert (Hy : ∀ k, k < m - i → aj !! (i + k) = Some (Fin (y k))).
  { intros k Hk. destruct (Hreal (i + k)) as [z Hz]; [lia|].
    unfold y. by rewrite (getR_Fin _ _ _ Hz). }
  destruct (reflect_column_real V m i aj u y Him Haj HV Hu Hy)
    as (b & Hb & Hlb & Hinb & Houtb).
  assert (b = aj') as -> by congruence.
  apply list_eq. intros r. unfold reflector. rewrite list_lookup_imap.
  destruct (decide (i ≤ r < m)) as [Hin|Hout].
  - pose proof (Hinb (r - i) ltac:(lia)) as Hb'.
    pose proof (Hy (r - i) ltac:(lia)) as Hy'.
    replace (i + (r - i)) with r in Hb', Hy' by lia.
    rewrite Hb', Hy'. simpl.
    rewrite (dsum_Fin _ (fun l => (u l * y l)%R)).
    2:{ intros l Hl. rewrite (getD_Some V l (Fin (u l))) by (apply Hu; lia).
        rewrite (getD_Some aj (i + l) (Fin (y l))) by (apply Hy; lia). done. }
    rewrite (getD_Some V (r - i) (Fin (u (r - i)))) by (apply Hu; lia).
    simpl. do 2 f_equal. unfold refl.
    rewrite (sum_range_ext (fun l => (y l * u l)%R) (fun l => (u l * y l)%R))
      by (intros; lra).
    lra.
  - rewrite Houtb by lia.
    by destruct (aj !! r).
Qed.

Lemma apply_Q_ext (v v' : list (list dbl)) (m k : nat) :
  (∀ l, l < k → v' !! l = v !! l) →
  ∀ col, apply_Q v' m k col = apply_Q v m k col.
Proof.
  induction k as [|k IH]; intros H col; [done|].
  simpl. rewrite (H k) by lia.
  destruct (v !! k) as [vk|]; simpl; [|done].
  apply IH. intros l Hl. apply H. lia.
Qed.

Lemma entry_Some (a : list (list dbl)) (j r : nat) (col : list dbl) :
  a !! j = Some col → entry a j r = col !! r.
Proof. intros H. unfold entry. by rewrite H. Qed.

(** ** The invariant of a non-degenerate run *)

Lemma run_inv_step (A : list (list dbl)) (m n i : nat)
    (a v : list (list dbl)) :
  i < n → n ≤ m → run_inv A m n i a v → ¬ zero_active m i a →
  ∃ a' v', householder_iter m n i (a, v) = Some (a', v')
           ∧ run_inv A m n (S i) a' v'.
Proof.
  intros Hin Hnm (Ha & Hv & Hreal & Hunit & Hzero & HQ) Hnz.
  destruct (householder_iter_spec m n i a v Hin Hnm Ha Hv)
    as (ai & vi & V & a' & Hai & Hvi & HV & HlV & Hit & Hlen & Hout & Hmid).
  destruct (householder_iter_shape m n i a v a' (<[i:=V]> v))
    as (Ha' & Hv' & _ & _); [done..|].
  exists a', (<[i:=V]> v). split; [done|].
  assert (Hiv : i < length v) by (eapply (lookup_lt_Some v i); done).
  set (x := fun k => getR ai (i + k)).
  assert (Hcol : ∀ j col r, j < n → a !! j = Some col → r < m →
                            col !! r = Some (Fin (getR col r))).
  { intros j col r Hj Hc Hr. destruct (Hreal j r Hj Hr) as [z Hz].
    rewrite (entry_Some _ _ _ _ Hc) in Hz. by rewrite (getR_Fin _ _ _ Hz). }
  assert (Hx : ∀ k, k < m - i → ai !! (i + k) = Some (Fin (x k))).
  { intros k Hk. apply (Hcol i); [done..|lia]. }
  assert (Hnorm : hvnorm x (m - i) ≠ 0%R).
  { intros H0. apply Hnz. intros r Hr. rewrite (entry_Some _ _ _ _ Hai).
    replace r with (i + (r - i)) by lia. rewrite Hx by lia.
    rewrite (hvnorm_zero_inv x (m - i)) by first [lia | done]. done. }
  destruct (Ha i Hin) as (ai0 & Hai0 & Hlai).
  destruct (Hv i Hin) as (vi0 & Hvi0 & Hlvi). simplify_eq.
  destruct (reflection_vector_real ai vi m i x)
    as (V' & HV' & _ & HVin & HVout); [lia..|done|done|].
  rewrite HV in HV'. injection HV' as <-.
  set (u := hvec x (m - i)).
  assert (Huu : sum_range (fun k => (u k * u k)%R) 0 (m - i) = 1%R).
  { apply hvec_unit; [lia|done]. }
  assert (HlV' : m - i ≤ length V) by lia.
  assert (Hnew : ∀ j, i ≤ j < n →
    ∃ aj aj', a !! j = Some aj ∧ a' !! j = Some aj'
      ∧ reflect_column V m i aj = Some aj' ∧ m ≤ length aj
      ∧ (∀ k, k < m - i →
           aj' !! (i + k)
           = Some (Fin (refl u (m - i) (fun k => getR aj (i + k)) k)))
      ∧ (∀ r, r < i ∨ m ≤ r → aj' !! r = aj !! r)).
  { intros j Hj. destruct (Hmid j Hj) as (aj & aj' & Haj & Hr & Hl & Haj').
    destruct (Ha j) as (c & Hc & Hlc); [lia|]. simplify_eq.
    destruct (reflect_column_real V m i aj u (fun k => getR aj (i + k)))
      as (b & Hb & _ & Hinb & Houtb); [lia..|done| |].
    { intros k Hk. apply (Hcol j); [lia|done|lia]. }
    rewrite Hr in Hb. injection Hb as <-.
    exists aj, aj'. done. }
  split; [done|]. split; [done|]. split; [|split; [|split]].
  - intros j r Hj Hr. destruct (decide (j < i)) as [Hlt|Hge].
    + unfold entry. rewrite Hout by lia. apply (Hreal j r Hj Hr).
    + destruct (Hnew j) as (aj & aj' & Haj & Haj' & _ & _ & Hin' & Hout');
        [lia|].
      rewrite (entry_Some _ _ _ _ Haj').
      destruct (decide (i ≤ r)) as [Hir|Hri].
      * replace r with (i + (r - i)) by lia. rewrite Hin' by lia. eauto.
      * rewrite Hout' by lia. exists (getR aj r). apply (Hcol j); done || lia.
  - intros k Hk. destruct (decide (k = i)) as [->|Hne].
    + exists V. rewrite list_lookup_insert_eq by done.
      split; [done|]. split; [split|].
      * intros l Hl. eauto.
      * rewrite (sum_range_ext _ (fun l => (u l * u l)%R)); [done|].
        intros l Hl. rewrite (getR_Fin V l (u l)) by (apply HVin; lia). done.
      * by apply (reflection_vector_normalized ai vi V m i).
    + rewrite list_lookup_insert_ne by done. apply Hunit. lia.
  - intros j r Hj Hr. destruct (decide (j = i)) as [->|Hne].
    + destruct (Hnew i) as (aj & aj' & Haj & Haj' & _ & _ & Hin' & _); [lia|].
      assert (aj = ai) as -> by congruence.
      rewrite (entry_Some _ _ _ _ Haj').
      replace r with (i + (r - i)) by lia. rewrite Hin' by lia.
      fold x. unfold u. rewrite refl_self by first [lia | done].
      destruct (r - i) eqn:E; [lia|done].
    + unfold entry. rewrite Hout by lia. apply Hzero; lia.
  - intros j Hj. destruct (HQ j Hj) as (col & Hc & HQc).
    destruct (Ha j Hj) as (c0 & Hc0 & Hlc). simplify_eq.
    assert (Hagree : ∀ l, l < i → <[i:=V]> v !! l = v !! l).
    { intros l Hl. by rewrite list_lookup_insert_ne by lia. }
    destruct (decide (j < i)) as [Hlt|Hge].
    + exists col. rewrite Hout by lia. split; [done|].
      simpl. rewrite list_lookup_insert_eq by done. simpl.
      assert (Hz : ∀ r, i ≤ r < m → col !! r = Some (Fin 0)).
      { intros r Hr. rewrite <- (entry_Some a j r col Hc). apply Hzero; lia. }
      rewrite (reflector_reflect_column V m i col col u);
        [|lia..|done|
         |apply (reflect_column_zero_rows V m i col u); [lia..|done|done]].
      * by rewrite (apply_Q_ext v).
      * intros r Hr. exists 0%R. by apply Hz.
    + destruct (Hnew j) as (aj & aj' & Haj & Haj' & Hrc & _ & _ & _); [lia|].
      assert (aj = col) as -> by congruence.
      exists aj'. split; [done|].
      simpl. rewrite list_lookup_insert_eq by done. simpl.
      assert (Hrealc : ∀ r, i ≤ r < m → ∃ z, col !! r = Some (Fin z)).
      { intros r Hr. exists (getR col r). apply (Hcol j); done || lia. }
      destruct (Hnew j) as (c0 & c1 & Hc0 & Hc1 & _ & _ & Hin1 & _); [lia|].
      assert (c0 = col) as -> by congruence.
      assert (c1 = aj') as -> by congruence.
      destruct (reflect_column_spec V m i col) as (b & Hb & Hlb & _);
        [lia..|].
      assert (b = aj') as -> by congruence.
      rewrite (reflector_reflect_column V m i aj' col u);
        [|lia..|done|
         |apply (reflect_column_involutive V m i col aj' u);
            [lia..|done|done|done|done]].
      * by rewrite (apply_Q_ext v).
      * intros r Hr. replace r with (i + (r - i)) by lia.
        rewrite Hin1 by lia. eauto.
Qed.

Lemma run_inv_init (A v : list (list dbl)) (m n : nat) :
  columns_ok m n A → vectors_ok m n v → real_matrix m n A →
  run_inv A m n 0 A v.
Proof.
  intros Ha Hv Hr. repeat (split; [done|]).
  split; [intros; lia|]. split; [intros; lia|].
  intros j Hj. destruct (Ha j Hj) as (col & Hc & _). exists col. done.
Qed.

Lemma householder_run_inv (A v : list (list dbl)) (m n : nat) :
  n ≤ m → columns_ok m n A → vectors_ok m n v → real_matrix m n A →
  nondegenerate m n A v →
  ∀ i, i ≤ n →
    ∃ a' v', householder_upto A v m n i = Some (a', v')
             ∧ run_inv A m n i a' v'.
Proof.
  intros Hnm Ha Hv Hr Hnd. induction i as [|i IH]; intros Hi.
  - exists A, v. split; [done|]. by apply run_inv_init.
  - destruct IH as (a1 & v1 & Hup & Hinv); [lia|].
    destruct (run_inv_step A m n i a1 v1) as (a2 & v2 & Hit & Hinv2);
      [lia|done|done| |].
    { apply (Hnd i (a1, v1)); [lia|done]. }
    exists a2, v2. rewrite householder_upto_S, Hup. done.
Qed.

(** One iteration seen from a real, nonzero active sub-column [x]: the
    vector stored is [hvec x], and every real trailing column is reflected
    by it. *)
Lemma householder_iter_column (m n i : nat) (a v : list (list dbl))
    (ai : list dbl) (x : nat → R) :
  i < n → n ≤ m → columns_ok m n a → vectors_ok m n v →
  a !! i = Some ai →
  (∀ k, k < m - i → ai !! (i + k) = Some (Fin (x k))) →
  hvnorm x (m - i) ≠ 0%R →
  ∃ a' v',
    householder_iter m n i (a, v) = Some (a', v')
    ∧ (∀ k, k < m - i → entry v' i k = Some (Fin (hvec x (m - i) k)))
    ∧ (∀ j aj (y : nat → R),
         i ≤ j < n → a !! j = Some aj →
         (∀ k, k < m - i → aj !! (i + k) = Some (Fin (y k))) →
         ∀ k, k < m - i →
           entry a' j (i + k)
           = Some (Fin (refl (hvec x (m - i)) (m - i) y k))).
Proof.
  intros Hin Hnm Ha Hv Hai Hx Hnz.
  destruct (householder_iter_spec m n i a v Hin Hnm Ha Hv)
    as (ai0 & vi & V & a' & Hai0 & Hvi & HV & HlV & Hit & Hlen & Hout & Hmid).
  assert (ai0 = ai) as -> by congruence.
  destruct (Ha i Hin) as (c & Hc & Hlai). assert (c = ai) as -> by congruence.
  destruct (Hv i Hin) as (c & Hc' & Hlvi). assert (c = vi) as -> by congruence.
  destruct (reflection_vector_real ai vi m i x)
    as (V' & HV' & _ & HVin & _); [lia..|done|done|].
  assert (V' = V) as -> by congruence.
  assert (Hiv : i < length v) by (eapply (lookup_lt_Some v i); done).
  exists a', (<[i:=V]> v). split; [done|]. split.
  - intros k Hk. unfold entry. rewrite list_lookup_insert_eq by done.
    simpl. by apply HVin.
  - intros j aj y Hj Haj Hy k Hk.
    destruct (Hmid j Hj) as (aj0 & aj' & Haj0 & Hr & Hl & Haj').
    assert (aj0 = aj) as -> by congruence.
    destruct (Ha j) as (c & Hcj & Hlaj); [lia|].
    assert (c = aj) as -> by congruence.
    destruct (reflect_column_real V m i aj (hvec x (m - i)) y)
      as (b & Hb & _ & Hinb & _); [lia..|done|done|].
    assert (b = aj') as -> by congruence.
    rewrite (entry_Some _ _ _ _ Haj'). by apply Hinb.
Qed.

(** An iteration changes no column before [i], no row before [i], no row
    from [m] on, and no vector but [v[i]]. *)
Lemma householder_iter_frame (m n i : nat) (a v a' v' : list (list dbl)) :
  i < n → n ≤ m → columns_ok m n a → vectors_ok m n v →
  householder_iter m n i (a, v) = Some (a', v') →
  (∀ j, j < i ∨ n ≤ j → a' !! j = a !! j)
  ∧ (∀ j r, r < i ∨ m ≤ r → entry a' j r = entry a j r)
  ∧ (∀ k, k ≠ i → v' !! k = v !! k).
Proof.
  intros Hin Hnm Ha Hv Hit.
  destruct (householder_iter_spec m n i a v Hin Hnm Ha Hv)
    as (ai & vi & V & a1 & Hai & Hvi & HV & HlV & Hit' & Hlen & Hout & Hmid).
  rewrite Hit' in Hit. injection Hit as <- <-.
  split; [done|]. split.
  - intros j r Hr. destruct (decide (i ≤ j < n)) as [Hj|Hj].
    + destruct (Hmid j Hj) as (aj & aj' & Haj & Hrc & Hl & Haj').
      destruct (Ha j) as (c & Hc & Hlaj); [lia|].
      assert (c = aj) as -> by congruence.
      destruct (Hv i Hin) as (c & Hc' & Hlvi).
      assert (c = vi) as -> by congruence.
      destruct (reflect_column_spec V m i aj) as (b & Hb & _ & _ & Houtb);
        [lia..|].
      assert (b = aj') as -> by congruence.
      rewrite (entry_Some _ _ _ _ Haj'), (entry_Some _ _ _ _ Haj).
      by apply Houtb.
    + unfold entry. rewrite Hout by lia. done.
  - intros k Hk. by rewrite list_lookup_insert_ne by done.
Qed.

(** Column [j] is final once iteration [j] is over. *)
Lemma householder_upto_column_final (a v : list (list dbl)) (m n j : nat) :
  n ≤ m → columns_ok m n a → vectors_ok m n v → j < n →
  ∀ k, j < k → k ≤ n →
    ∃ sj sk, householder_upto a v m n (S j) = Some sj
             ∧ householder_upto a v m n k = Some sk
             ∧ sk.1 !! j = sj.1 !! j ∧ sk.2 !! j = sj.2 !! j.
Proof.
  intros Hnm Ha Hv Hj. induction k as [|k IH]; intros Hjk Hk; [lia|].
  destruct (householder_upto_safe a v m n Hnm Ha Hv (S k) Hk)
    as (ak & vk & Hupk & _).
  destruct (decide (j = k)) as [->|Hne].
  - exists (ak, vk), (ak, vk). done.
  - destruct IH as (sj & [a1 v1] & Hsj & Hs1 & Ea & Ev); [lia..|].
    destruct (householder_upto_safe a v m n Hnm Ha Hv k)
      as (a1' & v1' & Hup1 & Ha1 & Hv1 & _); [lia|].
    assert (a1' = a1 ∧ v1' = v1) as [-> ->] by (split; congruence).
    pose proof Hupk as Hit.
    rewrite householder_upto_S, Hs1 in Hit. simpl in Hit.
    destruct (householder_iter_frame m n k a1 v1 ak vk)
      as (Hcols & _ & Hvecs); [lia|done..|].
    exists sj, (ak, vk). split; [done|]. split; [done|]. simpl in *.
    rewrite Hcols, Hvecs by lia. done.
Qed.


Lemma Exists_nonzero_lookup (xs : list R) :
  Exists (fun r => r ≠ 0%R) xs → ∃ k r, xs !! k = Some r ∧ r ≠ 0%R.
Proof.
  intros H. apply Exists_exists in H as (r & Hin & Hr).
  apply list_elem_of_lookup in Hin as [k Hk]. eauto.
Qed.

(** ** A degenerate step *)

(** On an all-zero active sub-column the iteration does not fail: it
    divides by the zero norm and leaves NaN in [v[i]] and in rows
    [i .. m-1] of every column from [i] on. *)
Lemma householder_iter_degenerate (m n i : nat) (a v : list (list dbl)) :
  i < n → n ≤ m → columns_ok m n a → vectors_ok m n v →
  zero_active m i a →
  ∃ a' v', householder_iter m n i (a, v) = Some (a', v')
           ∧ (∀ l, l < m - i → entry v' i l = Some NaN)
           ∧ (∀ j r, i ≤ j < n → i ≤ r < m → entry a' j r = Some NaN).
Proof.
  intros Hin Hnm Ha Hv Hz.
  destruct (householder_iter_spec m n i a v Hin Hnm Ha Hv)
    as (ai & vi & V & a' & Hai & Hvi & HV & HlV & Hit & Hlen & Hout & Hmid).
  destruct (Ha i Hin) as (c & Hc & Hlai). assert (c = ai) as -> by congruence.
  destruct (Hv i Hin) as (c & Hc' & Hlvi). assert (c = vi) as -> by congruence.
  destruct (reflection_vector_zero ai vi m i) as (V' & HV' & _ & HVin & _);
    [lia..| |].
  { intros k Hk. rewrite <- (entry_Some a i (i + k) ai Hai). apply Hz. lia. }
  assert (V' = V) as -> by congruence.
  assert (Hiv : i < length v) by (eapply (lookup_lt_Some v i); done).
  exists a', (<[i:=V]> v). split; [done|]. split.
  - intros l Hl. unfold entry. rewrite list_lookup_insert_eq by done.
    simpl. by apply HVin.
  - intros j r Hj Hr.
    destruct (Hmid j Hj) as (aj & aj' & Haj & Hrc & Hl & Haj').
    destruct (Ha j) as (c & Hcj & Hlaj); [lia|].
    assert (c = aj) as -> by congruence.
    destruct (reflect_column_NaN V m i aj) as (b & Hb & _ & Hinb & _);
      [lia..|done|].
    assert (b = aj') as -> by congruence.
    rewrite (entry_Some _ _ _ _ Haj'). by apply Hinb.
Qed.

(** An entry that is NaN stays NaN through an iteration. *)
Lemma householder_iter_NaN_kept (m n i : nat) (a v a' v' : list (list dbl)) :
  i < n → n ≤ m → columns_ok m n a → vectors_ok m n v →
  householder_iter m n i (a, v) = Some (a', v') →
  ∀ j r, entry a j r = Some NaN → entry a' j r = Some NaN.
Proof.
  intros Hin Hnm Ha Hv Hit j r Hnan.
  destruct (householder_iter_spec m n i a v Hin Hnm Ha Hv)
    as (ai & vi & V & a1 & Hai & Hvi & HV & HlV & Hit' & Hlen & Hout & Hmid).
  rewrite Hit' in Hit. injection Hit as <- <-.
  destruct (decide (i ≤ j < n)) as [Hj|Hj].
  - destruct (Hmid j Hj) as (aj & aj' & Haj & Hrc & Hl & Haj').
    destruct (Ha j) as (c & Hc & Hlaj); [lia|].
    assert (c = aj) as -> by congruence.
    destruct (Hv i Hin) as (c & Hc' & Hlvi).
    assert (c = vi) as -> by congruence.
    destruct (reflect_column_spec V m i aj) as (b & Hb & _ & Hinb & Houtb);
      [lia..|].
    assert (b = aj') as -> by congruence.
    rewrite (entry_Some _ _ _ _ Haj) in Hnan.
    rewrite (entry_Some _ _ _ _ Haj').
    destruct (decide (i ≤ r < m)) as [Hr|Hr].
    + replace r with (i + (r - i)) in * by lia.
      rewrite Hinb by lia. by rewrite (getD_Some _ _ _ Hnan).
    + rewrite Houtb by lia. done.
  - unfold entry in *. rewrite Hout by lia. done.
Qed.

(** After a degenerate step the run goes on to its end, and the NaN it
    produced is still there at every later point. *)
Lemma householder_degenerate (a0 v0 : list (list dbl)) (m n i : nat)
    (a v : list (list dbl)) :
  n ≤ m → columns_ok m n a0 → vectors_ok m n v0 → i < n →
  householder_upto a0 v0 m n i = Some (a, v) →
  zero_active m i a →
  ∀ k, i < k → k ≤ n →
    ∃ ak vk, householder_upto a0 v0 m n k = Some (ak, vk)
             ∧ (∀ l, l < m - i → entry vk i l = Some NaN)
             ∧ (∀ j r, i ≤ j < n → i ≤ r < m → entry ak j r = Some NaN).
Proof.
  intros Hnm Ha0 Hv0 Hi Hup Hz.
  induction k as [|k IH]; intros Hik Hk; [lia|].
  destruct (householder_upto_safe a0 v0 m n Hnm Ha0 Hv0 k)
    as (a1 & v1 & Hup1 & Ha1 & Hv1 & _); [lia|].
  destruct (decide (k = i)) as [->|Hne].
  - assert (a1 = a ∧ v1 = v) as [-> ->] by (split; congruence).
    destruct (householder_iter_degenerate m n i a v Hi Hnm Ha1 Hv1 Hz)
      as (a2 & v2 & Hit & Hvn & Han).
    exists a2, v2. rewrite householder_upto_S, Hup. done.
  - destruct IH as (ak & vk & Hupk & Hvn & Han); [lia..|].
    assert (a1 = ak ∧ v1 = vk) as [-> ->] by (split; congruence).
    destruct (householder_iter_spec m n k ak vk)
      as (_ & _ & V & a2 & _ & _ & _ & _ & Hit & _); [lia|done..|].
    destruct (householder_iter_frame m n k ak vk a2 (<[k:=V]> vk))
      as (_ & _ & Hvecs); [lia|done..|].
    exists a2, (<[k:=V]> vk). rewrite householder_upto_S, Hupk.
    split; [done|]. split.
    + intros l Hl. unfold entry. rewrite Hvecs by lia. by apply Hvn.
    + intros j r Hj Hr.
      apply (householder_iter_NaN_kept m n k ak vk a2 (<[k:=V]> vk));
        [lia|done..|]. by apply Han.
Qed.

(** ** Running the routine on concrete inputs *)

Ltac real_decide :=
  repeat match goal with
  | |- context [Rlt_dec ?a ?b] =>
      let H := fresh in
      destruct (Rlt_dec a b) as [H|H];
      [try (exfalso; lra) | try (exfalso; apply H; lra)]
  | |- context [Req_dec_T ?a ?b] =>
      let H := fresh in
      destruct (Req_dec_T a b) as [H|H];
      [try (exfalso; lra) | try (exfalso; apply H; lra)]
  end.

Ltac sqrt_simpl :=
  repeat match goal with
  | |- context [sqrt (?a * ?a + ?t)] =>
      replace (a * a + t)%R with (a * a)%R by lra;
      rewrite (sqrt_square a) by lra
  end.

Ltac run_code :=
  unfold householder, householder_upto, householder_iter, reflection_vector,
    reflect_column, partialvec_copy, partialdot_product, set_first_entry,
    normalize, scalar_div, subdot_product, partialscalar_sub;
  repeat (cbn -[write]; rewrite ?write_Some by (cbn; lia);
          sqrt_simpl; real_decide).

(** ** The worked inputs *)

Lemma example_columns_ok : columns_ok 3 2 example_A.
Proof.
  intros j Hj. destruct j as [|[|j]]; [| |lia];
    (eexists; split; [reflexivity|simpl; lia]).
Qed.

Lemma example_vectors_ok : vectors_ok 3 2 example_V.
Proof.
  intros j Hj. destruct j as [|[|j]]; [| |lia];
    (eexists; split; [reflexivity|simpl; lia]).
Qed.

Lemma example_D_columns_ok : columns_ok 3 2 example_D.
Proof.
  intros j Hj. destruct j as [|[|j]]; [| |lia];
    (eexists; split; [reflexivity|simpl; lia]).
Qed.

Lemma example_real : real_matrix 3 2 example_A.
Proof.
  intros j r Hj Hr.
  destruct j as [|[|j]]; [| |lia]; destruct r as [|[|[|r]]]; try lia;
    eexists; reflexivity.
Qed.

Lemma example_D_upto_1 :
  householder_upto example_D example_V 3 2 1 = Some (example_D1, example_V1).
Proof.
  unfold example_D, example_V, example_D1, example_V1.
  run_code. repeat f_equal; lra.
Qed.

Lemma example_nondegenerate : nondegenerate 3 2 example_A example_V.
Proof.
  intros i s Hi Hup Hz. destruct i as [|[|i]]; [| |lia].
  - injection Hup as <-. specialize (Hz 0 ltac:(lia)).
    injection Hz as Hz. lra.
  - rewrite householder_upto_S in Hup.
    change (householder_iter 3 2 0 (example_A, example_V) = Some s) in Hup.
    set (x := fun k => getR [Fin 3; Fin 4; Fin 0] (0 + k)).
    set (y := fun k => getR [Fin 1; Fin 2; Fin 5] (0 + k)).
    assert (Hnz : hvnorm x (3 - 0) ≠ 0%R).
    { intros H0.
      pose proof (hvnorm_zero_inv x 3 ltac:(lia) H0 0 ltac:(lia)) as E.
      unfold x, getR in E. simpl in E. lra. }
    destruct (householder_iter_column 3 2 0 example_A example_V
                [Fin 3; Fin 4; Fin 0] x)
      as (a' & v' & Hit & _ & Hcols);
      [lia | lia | apply example_columns_ok | apply example_vectors_ok
      | reflexivity | | exact Hnz | ].
    { intros k Hk. destruct k as [|[|[|k]]]; [reflexivity..|lia]. }
    rewrite Hit in Hup. injection Hup as <-.
    specialize (Hz 2 ltac:(lia)).
    change (entry a' 1 2 = Some (Fin 0)) in Hz.
    assert (E : entry a' 1 (0 + 2)
                = Some (Fin (refl (hvec x (3 - 0)) (3 - 0) y 2))).
    { apply (Hcols 1 [Fin 1; Fin 2; Fin 5] y); [lia|reflexivity| |lia].
      intros k Hk. destruct k as [|[|[|k]]]; [reflexivity..|lia]. }
    change (0 + 2) with 2 in E. rewrite E in Hz.
    injection Hz as Hz. unfold refl, hvec in Hz.
    replace (x 2) with 0%R in Hz by reflexivity.
    replace (y 2) with 5%R in Hz by reflexivity.
    unfold Rdiv in Hz. rewrite Rmult_0_l, Rmult_0_r in Hz. lra.
Qed.

Lemma example_D1_zero_active : zero_active 3 1 example_D1.
Proof.
  intros r Hr. destruct r as [|[|[|r]]]; try lia; reflexivity.
Qed.

(** * The properties of the factorisation *)

(** C1.  For a real [m] by [n] matrix with [1 <= n <= m] and no all-zero
    active sub-column, [householder] returns and leaves an upper triangular
    result: every stored entry [a[j][r]] of a column [j < n] at a row
    [r > j] is exactly zero.  The statement covers all rows below the
    diagonal up to [m], hence the first [n] rows. *)
Theorem householder_upper_triangular (A v : list (list dbl)) (m n : nat) :
  1 ≤ n → n ≤ m →
  columns_ok m n A → vectors_ok m n v → real_matrix m n A →
  nondegenerate m n A v →
  ∃ a' v', householder A v m n = Some (a', v')
           ∧ ∀ j r, j < n → j < r → r < m → entry a' j r = Some (Fin 0).
Proof.
  intros H1 Hnm Ha Hv Hr Hnd.
  destruct (householder_run_inv A v m n Hnm Ha Hv Hr Hnd n)
    as (a' & v' & Hrun & _ & _ & _ & _ & Hzero & _); [lia|].
  exists a', v'. split; [done|].
  intros j r Hj Hjr Hrm. apply Hzero; lia.
Qed.

(** C1 at the worked input [example_A], which meets its hypotheses. *)
Lemma householder_upper_triangular_witness :
  nondegenerate 3 2 example_A example_V
  ∧ ∃ a' v', householder example_A example_V 3 2 = Some (a', v')
             ∧ ∀ j r, j < 2 → j < r → r < 3 → entry a' j r = Some (Fin 0).
Proof.
  split; [apply example_nondegenerate|].
  apply (householder_upper_triangular example_A example_V 3 2);
    [lia | lia | apply example_columns_ok | apply example_vectors_ok
    | apply example_real | apply example_nondegenerate].
Defined.

(** C2.  For a real [m] by [n] matrix with [1 <= n <= m] and no all-zero
    active sub-column, applying the reflectors [H_i = I - 2 v_i v_i^T] of
    the returned vectors, composed as [H_0 H_1 ... H_{n-1}], to each column
    of the returned R gives back the column of the input: Q R = A.  The
    reflectors are those of [reflector], stated apart from the code. *)
Theorem householder_QR_reconstructs (A v : list (list dbl)) (m n : nat) :
  1 ≤ n → n ≤ m →
  columns_ok m n A → vectors_ok m n v → real_matrix m n A →
  nondegenerate m n A v →
  ∃ a' v', householder A v m n = Some (a', v')
           ∧ ∀ j, j < n →
               ∃ col, a' !! j = Some col ∧ apply_Q v' m n col = A !! j.
Proof.
  intros H1 Hnm Ha Hv Hr Hnd.
  destruct (householder_run_inv A v m n Hnm Ha Hv Hr Hnd n)
    as (a' & v' & Hrun & _ & _ & _ & _ & _ & HQ); [lia|].
  exists a', v'. done.
Qed.

(** C2 at the worked input [example_A]. *)
Lemma householder_QR_reconstructs_witness :
  nondegenerate 3 2 example_A example_V
  ∧ ∃ a' v', householder example_A example_V 3 2 = Some (a', v')
             ∧ ∀ j, j < 2 →
                 ∃ col, a' !! j = Some col
                        ∧ apply_Q v' 3 2 col = example_A !! j.
Proof.
  split; [apply example_nondegenerate|].
  apply (householder_QR_reconstructs example_A example_V 3 2);
    [lia | lia | apply example_columns_ok | apply example_vectors_ok
    | apply example_real | apply example_nondegenerate].
Defined.



(** C4 fails on the code: with [m = 3], [n = 2] and column 0 equal to
    [[0,0,0]] the routine raises nothing.  It returns normally, and column
    1, which held [[4,5,6]], comes back overwritten with NaN. *)
Lemma householder_zero_column_returns :
  householder [[Fin 0; Fin 0; Fin 0]; [Fin 4; Fin 5; Fin 6]]
              [[Fin 0; Fin 0; Fin 0]; [Fin 0; Fin 0]] 3 2
  = Some ([[NaN; NaN; NaN]; [NaN; NaN; NaN]], [[NaN; NaN; NaN]; [NaN; NaN]]).
Proof. run_code. done. Qed.

(** C4, as the code has it.  [householder] has no zero-norm check and no
    way to signal an error.  When the active sub-column of some step [i] is
    entirely zero, the computed norm is zero, every entry of [v_i] is
    divided by it, and the routine runs to its end and returns normally:
    [v_i] and rows [i .. m-1] of all columns from [i] on hold NaN. *)
Theorem householder_zero_norm_returns (a0 v0 : list (list dbl))
    (m n i : nat) (a v : list (list dbl)) :
  1 ≤ n → n ≤ m → columns_ok m n a0 → vectors_ok m n v0 → i < n →
  householder_upto a0 v0 m n i = Some (a, v) →
  zero_active m i a →
  ∃ aR vR, householder a0 v0 m n = Some (aR, vR)
           ∧ (∀ l, l < m - i → entry vR i l = Some NaN)
           ∧ (∀ j r, i ≤ j < n → i ≤ r < m → entry aR j r = Some NaN).
Proof.
  intros H1 Hnm Ha0 Hv0 Hi Hup Hz.
  apply (householder_degenerate a0 v0 m n i a v Hnm Ha0 Hv0 Hi Hup Hz n); lia.
Qed.

(** The corrected C4 at [example_D], whose second step is degenerate. *)
Lemma householder_zero_norm_returns_witness :
  zero_active 3 1 example_D1
  ∧ ∃ aR vR, householder example_D example_V 3 2 = Some (aR, vR)
             ∧ (∀ l, l < 3 - 1 → entry vR 1 l = Some NaN)
             ∧ (∀ j r, 1 ≤ j < 2 → 1 ≤ r < 3 → entry aR j r = Some NaN).
Proof.
  split; [apply example_D1_zero_active|].
  apply (householder_zero_norm_returns example_D example_V 3 2 1
           example_D1 example_V1);
    [lia | lia | apply example_D_columns_ok | apply example_vectors_ok | lia
    | apply example_D_upto_1 | apply example_D1_zero_active].
Defined.

(** C5.  In every iteration, after the copy of the active sub-column into
    [v_i] and the computation of [tailNormSq] over [v_i[1 .. m-i)], the
    first entry becomes
    [v_i[0] + sign(v_i[0]) * sqrt(v_i[0]^2 + tailNormSq)] with [sign] equal
    to [-1] below zero and [+1] otherwise, also at zero: on a negative
    first entry the norm is subtracted, on any other it is added. *)
Theorem set_first_entry_sign_rule (vi : list dbl) (tailNormSq : dbl) :
  set_first_entry vi tailNormSq = set_first_entry_spec vi tailNormSq
  ∧ (∀ ai v0 m i,
       reflection_vector ai v0 m i
       = (c ← partialvec_copy ai v0 (m - i) i;
          t ← partialdot_product c c (m - i) 1;
          w ← set_first_entry_spec c t;
          normalize w t (m - i)))
  ∧ (∀ r, sign (Fin r) = if Rlt_dec r 0 then Fin (-1) else Fin 1)
  ∧ sign (Fin 0) = Fin 1
  ∧ (∀ r rest,
       set_first_entry (Fin r :: rest) tailNormSq
       = Some ((if Rlt_dec r 0
                then dsub (Fin r)
                       (dsqrt (dadd (dmul (Fin r) (Fin r)) tailNormSq))
                else dadd (Fin r)
                       (dsqrt (dadd (dmul (Fin r) (Fin r)) tailNormSq)))
               :: rest)).
Proof.
  assert (Heq : ∀ c t, set_first_entry c t = set_first_entry_spec c t).
  { intros c t. unfold set_first_entry, set_first_entry_spec, sign.
    destruct (c !! 0) as [x0|]; simpl; [|done].
    destruct x0 as [r|]; simpl; [|done].
    destruct (Rlt_dec r 0); destruct (dsqrt _) as [z|]; simpl; try done;
      do 2 f_equal; lra. }
  split; [apply Heq|]. split; [|split; [|split]].
  - intros ai v0 m i. unfold reflection_vector.
    destruct (partialvec_copy ai v0 (m - i) i) as [c|]; simpl; [|done].
    destruct (partialdot_product c c (m - i) 1) as [t|]; simpl; [|done].
    by rewrite Heq.
  - intros r. unfold sign, dlt. by destruct (Rlt_dec r 0).
  - unfold sign, dlt. destruct (Rlt_dec 0 0); [lra|done].
  - intros r rest. unfold set_first_entry, dlt. simpl.
    by destruct (Rlt_dec r 0).
Qed.

(** C6.  In a run of [householder], iteration [i] writes only to columns
    [j >= i] of the matrix and only to their rows [i .. m-1]: it returns a
    store in which every column before [i] (and every array beyond the [n]
    columns) is as before, and every entry outside rows [i .. m-1] is
    unchanged.  Consequently the column [a[j]] left by iteration [j] is the
    one found after every later iteration, up to the end of the run. *)
Theorem householder_frame (a v : list (list dbl)) (m n : nat) :
  1 ≤ n → n ≤ m → columns_ok m n a → vectors_ok m n v →
  (∀ i, i < n →
     ∃ a1 v1 a2 v2,
       householder_upto a v m n i = Some (a1, v1)
       ∧ householder_iter m n i (a1, v1) = Some (a2, v2)
       ∧ (∀ j, j < i ∨ n ≤ j → a2 !! j = a1 !! j)
       ∧ (∀ j r, r < i ∨ m ≤ r → entry a2 j r = entry a1 j r))
  ∧ (∀ j k, j < k → k ≤ n →
       ∃ aj vj ak vk,
         householder_upto a v m n (S j) = Some (aj, vj)
         ∧ householder_upto a v m n k = Some (ak, vk)
         ∧ ak !! j = aj !! j).
Proof.
  intros H1 Hnm Ha Hv. split.
  - intros i Hi.
    destruct (householder_upto_safe a v m n Hnm Ha Hv i)
      as (a1 & v1 & Hup & Ha1 & Hv1 & _); [lia|].
    destruct (householder_iter_spec m n i a1 v1 Hi Hnm Ha1 Hv1)
      as (ai & vi & V & a2 & _ & _ & _ & _ & Hit & _).
    destruct (householder_iter_frame m n i a1 v1 a2 (<[i:=V]> v1)
                Hi Hnm Ha1 Hv1 Hit) as (Hcols & Hrows & _).
    exists a1, v1, a2, (<[i:=V]> v1).
    done.
  - intros j k Hjk Hk.
    destruct (householder_upto_column_final a v m n j Hnm Ha Hv
                ltac:(lia) k Hjk Hk)
      as ([aj vj] & [ak vk] & Hsj & Hsk & Hcol & _).
    exists aj, vj, ak, vk. done.
Qed.

(** C6 at the worked input [example_A]. *)
Lemma householder_frame_witness :
  (∀ i, i < 2 →
     ∃ a1 v1 a2 v2,
       householder_upto example_A example_V 3 2 i = Some (a1, v1)
       ∧ householder_iter 3 2 i (a1, v1) = Some (a2, v2)
       ∧ (∀ j, j < i ∨ 2 ≤ j → a2 !! j = a1 !! j)
       ∧ (∀ j r, r < i ∨ 3 ≤ r → entry a2 j r = entry a1 j r))
  ∧ (∀ j k, j < k → k ≤ 2 →
       ∃ aj vj ak vk,
         householder_upto example_A example_V 3 2 (S j) = Some (aj, vj)
         ∧ householder_upto example_A example_V 3 2 k = Some (ak, vk)
         ∧ ak !! j = aj !! j).
Proof.
  apply (householder_frame example_A example_V 3 2);
    [lia | lia | apply example_columns_ok | apply example_vectors_ok].
Defined.

(** C7 fails on the code: the dimensions [m = 0], [n = 0] are non-positive
    and the driver calls [householder] with them. *)
Lemma main_accepts_zero_dimensions :
  main 0 0 = CallsHouseholder [] 0 0 ∧ main 0 0 ≠ Rejected.
Proof. split; [reflexivity|discriminate]. Qed.

(** C7, as the code has it.  The driver rejects exactly the dimensions with
    [m < n], before it allocates or calls anything; it has no test of
    positivity, so with [0 <= n <= m], zero included, it goes on to call
    [householder], and [householder] itself tests nothing: with [n = 0] it
    returns at once. *)
Theorem main_dimension_check (m n : Z) :
  ((m < n)%Z → main m n = Rejected)
  ∧ (main m n = Rejected → (m < n)%Z)
  ∧ ((0 ≤ n)%Z → (n ≤ m)%Z →
     main m n = CallsHouseholder (init_matrix (Z.to_nat m) (Z.to_nat n))
                                 (Z.to_nat m) (Z.to_nat n))
  ∧ (∀ a v m', householder a v m' 0 = Some (a, v)).
Proof.
  unfold main. split; [|split; [|split]].
  - intros H. apply Z.ltb_lt in H. by rewrite H.
  - destruct (m <? n)%Z eqn:E; [intros _; by apply Z.ltb_lt|].
    by destruct (n <? 0)%Z.
  - intros H0 Hnm.
    assert (E1 : (m <? n)%Z = false) by (apply Z.ltb_ge; lia).
    assert (E2 : (n <? 0)%Z = false) by (apply Z.ltb_ge; lia).
    by rewrite E1, E2.
  - done.
Qed.

(** The corrected C7 at the dimensions (2,3) and (3,2). *)
Lemma main_dimension_check_witness :
  main 2 3 = Rejected ∧ main 3 2 = CallsHouseholder (init_matrix 3 2) 3 2.
Proof.
  split.
  - apply (proj1 (main_dimension_check 2 3)). lia.
  - apply (proj1 (proj2 (proj2 (main_dimension_check 3 2)))); lia.
Defined.

(** C8.  On [m = n = 1], [A = [[5]]] the routine returns the reflection
    vector [v_0 = [+1]] (the pivot 5 is not negative, so the norm is added)
    and [R = [[-5]]], whatever [v] held before; applying the reflector to R
    gives back 5 exactly. *)
Theorem householder_one_by_one (junk : dbl) :
  householder [[Fin 5]] [[junk]] 1 1 = Some ([[Fin (-5)]], [[Fin 1]])
  ∧ apply_Q [[Fin 1]] 1 1 [Fin (-5)] = Some [Fin 5].
Proof.
  split.
  - run_code. repeat f_equal; lra.
  - unfold apply_Q, reflector. cbn.
    rewrite decide_True by lia. cbn. repeat f_equal; lra.
Qed.

(** C9.  Below the storage contract ([a] holds [n] columns of length at
    least [m], [v] holds [n] vectors, the [i]-th of capacity at least
    [m - i]) and [1 <= n <= m], no array access of [householder] or of the
    primitives it calls leaves its array: the routine returns, the
    out-of-range outcome [None] is not reached, and the arrays keep their
    sizes. *)
Theorem householder_in_bounds (a v : list (list dbl)) (m n : nat) :
  1 ≤ n → n ≤ m → columns_ok m n a → vectors_ok m n v →
  ∃ a' v', householder a v m n = Some (a', v')
           ∧ columns_ok m n a' ∧ vectors_ok m n v'
           ∧ length a' = length a ∧ length v' = length v.
Proof.
  intros H1 Hnm Ha Hv.
  apply (householder_upto_safe a v m n Hnm Ha Hv n). lia.
Qed.

(** C9 at the worked input [example_A]. *)
Lemma householder_in_bounds_witness :
  ∃ a' v', householder example_A example_V 3 2 = Some (a', v')
           ∧ columns_ok 3 2 a' ∧ vectors_ok 3 2 v'
           ∧ length a' = length example_A ∧ length v' = length example_V.
Proof.
  apply (householder_in_bounds example_A example_V 3 2);
    [lia | lia | apply example_columns_ok | apply example_vectors_ok].
Defined.

(** C10.  When the active sub-column [x = a[i][i .. m)] at the start of
    iteration [i] is real and nonzero, the diagonal entry [a[i][i]] after
    the iteration is [-sign(x[0]) * ||x||] with [sign 0 = +1]; it is the
    diagonal entry of the returned R, it is nonzero, and its sign is the
    opposite of the sign of the pivot [x[0]]. *)
Theorem householder_diagonal (a0 v0 : list (list dbl)) (m n i : nat)
    (a v : list (list dbl)) (xs : list R) :
  1 ≤ n → n ≤ m → columns_ok m n a0 → vectors_ok m n v0 → i < n →
  householder_upto a0 v0 m n i = Some (a, v) →
  length xs = m - i →
  (∀ k r, xs !! k = Some r → entry a i (i + k) = Some (Fin r)) →
  Exists (fun r => r ≠ 0%R) xs →
  let d := (- sgn (hd 0 xs) * norm xs)%R in
  ∃ a1 v1 aR vR,
    householder_iter m n i (a, v) = Some (a1, v1)
    ∧ entry a1 i i = Some (Fin d)
    ∧ householder a0 v0 m n = Some (aR, vR)
    ∧ entry aR i i = Some (Fin d)
    ∧ d ≠ 0%R
    ∧ sgn d = (- sgn (hd 0 xs))%R.
Proof.
  intros H1 Hnm Ha0 Hv0 Hi Hup Hlen Hxs Hex d.
  destruct (householder_upto_safe a0 v0 m n Hnm Ha0 Hv0 i)
    as (a' & v' & Hup' & Ha & Hv & _); [lia|].
  assert (a' = a ∧ v' = v) as [-> ->] by (split; congruence).
  destruct (Ha i Hi) as (ai & Hai & Hlai).
  set (x := fun k => default 0%R (xs !! k)).
  assert (Hx : ∀ k, k < m - i → ai !! (i + k) = Some (Fin (x k))).
  { intros k Hk. destruct (lookup_lt_is_Some_2 xs k) as [r Hr]; [lia|].
    rewrite <- (entry_Some a i (i + k) ai Hai). unfold x. rewrite Hr.
    by apply Hxs. }
  assert (Hnz : hvnorm x (m - i) ≠ 0%R).
  { intros H0. destruct (Exists_nonzero_lookup xs Hex) as (k & r & Hk & Hr).
    apply Hr. pose proof (lookup_lt_Some _ _ _ Hk) as Hlt.
    rewrite <- (hvnorm_zero_inv x (m - i) ltac:(lia) H0 k) by lia.
    unfold x. by rewrite Hk. }
  assert (Hhd : x 0 = hd 0%R xs).
  { unfold x. destruct xs; [simpl in Hlen; lia|done]. }
  assert (Hnorm : hnorm x (m - i) = norm xs).
  { unfold hnorm, norm. f_equal.
    rewrite <- (sum_range_sumsq x xs 0).
    - rewrite Hlen, (sum_range_head (m - i)) by lia. done.
    - intros k r Hk. unfold x. simpl. by rewrite Hk. }
  destruct (householder_iter_column m n i a v ai x Hi Hnm Ha Hv Hai Hx Hnz)
    as (a1 & v1 & Hit & _ & Hcols).
  assert (Hd : entry a1 i i = Some (Fin d)).
  { replace i with (i + 0) at 2 by lia.
    rewrite (Hcols i ai x) by first [lia | done].
    rewrite refl_self by first [lia | done].
    unfold d. by rewrite Hhd, Hnorm. }
  destruct (householder_upto_column_final a0 v0 m n i Hnm Ha0 Hv0 Hi n)
    as ([aj vj] & [aR vR] & Hsj & HR & Hcol & _); [lia..|].
  rewrite householder_upto_S, Hup in Hsj.
  change (householder_iter m n i (a, v) = Some (aj, vj)) in Hsj.
  assert (aj = a1) as -> by congruence.
  exists a1, v1, aR, vR. split; [done|]. split; [done|]. split; [done|].
  split.
  { unfold entry in *. simpl in Hcol. by rewrite Hcol. }
  pose proof (hnorm_pos x (m - i) Hnz) as Hpos.
  unfold d. rewrite <- Hnorm, <- Hhd. unfold sgn.
  destruct (Rlt_dec (x 0) 0) as [Hneg|Hnn].
  - split; [intros E; lra|].
    match goal with |- context [Rlt_dec ?e 0] => destruct (Rlt_dec e 0) end;
      lra.
  - split; [intros E; lra|].
    match goal with |- context [Rlt_dec ?e 0] => destruct (Rlt_dec e 0) end;
      lra.
Qed.

(** C10 at the first step of the worked input: the pivot 3 of the column
    [[3,4,0]] is replaced by [-5]. *)
Lemma householder_diagonal_witness :
  ∃ a1 v1 aR vR,
    householder_iter 3 2 0 (example_A, example_V) = Some (a1, v1)
    ∧ entry a1 0 0 = Some (Fin (- sgn (hd 0 [3; 4; 0]) * norm [3; 4; 0])%R)
    ∧ householder example_A example_V 3 2 = Some (aR, vR)
    ∧ entry aR 0 0 = Some (Fin (- sgn (hd 0 [3; 4; 0]) * norm [3; 4; 0])%R)
    ∧ (- sgn (hd 0 [3; 4; 0]) * norm [3; 4; 0])%R ≠ 0%R
    ∧ sgn (- sgn (hd 0 [3; 4; 0]) * norm [3; 4; 0])%R
      = (- sgn (hd 0 [3; 4; 0]))%R.
Proof.
  apply (householder_diagonal example_A example_V 3 2 0
           example_A example_V [3; 4; 0]%R);
    [lia | lia | apply example_columns_ok | apply example_vectors_ok | lia
    | reflexivity | reflexivity | | ].
  - intros k r H. destruct k as [|[|[|k]]]; simpl in H; try discriminate;
      injection H as <-; reflexivity.
  - apply Exists_cons_hd. lra.
Defined.

(** * Groundwork for the further properties *)

(** ** What a run that returns tells about its arrays *)

Lemma write_inv {A : Type} (l l' : list A) (k : nat) (x : A) :
  write l k x = Some l' → k < length l ∧ l' = <[k:=x]> l.
Proof. unfold write. case_decide; naive_solver. Qed.

Lemma for_loop_app {St : Type} (body : nat → St → option St) (c1 c2 : nat) :
  ∀ k s, for_loop k (c1 + c2) body s
         = for_loop k c1 body s ≫= for_loop (k + c1) c2 body.
Proof.
  induction c1 as [|c IH]; intros k s.
  - simpl. by rewrite Nat.add_0_r.
  - simpl. destruct (body k s) as [t|]; simpl; [|done].
    rewrite IH. by rewrite Nat.add_succ_comm.
Qed.

(** The loop rule for a loop that is known to have returned. *)
Lemma for_loop_post {St : Type} (P : nat → St → Prop)
    (body : nat → St → option St) (cnt : nat) :
  ∀ k s s',
    P k s →
    (∀ j t t', k ≤ j < k + cnt → P j t → body j t = Some t' → P (S j) t') →
    for_loop k cnt body s = Some s' →
    P (k + cnt) s'.
Proof.
  induction cnt as [|c IH]; intros k s s' HP Hstep Hrun.
  - simpl in Hrun. injection Hrun as <-. by rewrite Nat.add_0_r.
  - simpl in Hrun. destruct (body k s) as [t|] eqn:Hb; simpl in Hrun; [|done].
    rewrite <- Nat.add_succ_comm. apply (IH (S k) t s'); [|
      intros j u u' Hj; apply Hstep; lia|done].
    apply (Hstep k s t); [lia|done|done].
Qed.

Lemma partialvec_copy_inv (src dst d : list dbl) (len off : nat) :
  partialvec_copy src dst len off = Some d →
  len ≤ length dst ∧ (0 < len → off + len ≤ length src).
Proof.
  intros H. unfold partialvec_copy in H.
  apply (for_loop_post
    (fun j t => length t = length dst ∧ j ≤ length dst
                ∧ (0 < j → off + j ≤ length src))) in H.
  - simpl in H. tauto.
  - split; [done|]. split; lia.
  - intros j t t' Hj (Hl & Hd & Hs) Hb.
    destruct (src !! (off + j)) as [x|] eqn:Hx; simpl in Hb; [|done].
    apply lookup_lt_Some in Hx. apply write_inv in Hb as [Hlt ->].
    rewrite length_insert. split; [done|]. split; lia.
Qed.

Lemma reflection_vector_inv (ai vi V : list dbl) (m i : nat) :
  reflection_vector ai vi m i = Some V →
  m - i ≤ length vi ∧ (0 < m - i → i + (m - i) ≤ length ai).
Proof.
  unfold reflection_vector. intros H.
  destruct (partialvec_copy ai vi (m - i) i) as [v0|] eqn:Hc; [|done].
  by apply partialvec_copy_inv in Hc.
Qed.

Lemma subdot_product_inv (u v : list dbl) (len off : nat) (d : dbl) :
  subdot_product u v len off = Some d →
  0 < len → off + len ≤ length u ∧ len ≤ length v.
Proof.
  intros H Hpos. unfold subdot_product in H.
  apply (for_loop_post
    (fun j (_ : dbl) => j = 0 ∨ (off + j ≤ length u ∧ j ≤ length v))) in H.
  - simpl in H. destruct H as [H|H]; [lia|done].
  - by left.
  - intros j t t' Hj HP Hb. right.
    destruct (u !! (off + j)) as [x|] eqn:Hx; simpl in Hb; [|done].
    destruct (v !! j) as [y|] eqn:Hy; simpl in Hb; [|done].
    apply lookup_lt_Some in Hx, Hy. lia.
Qed.

Lemma partialscalar_sub_length (v : list dbl) (coef : dbl) (len off : nat)
    (io io' : list dbl) :
  partialscalar_sub v coef len off io = Some io' → length io' = length io.
Proof.
  intros H. unfold partialscalar_sub in H.
  apply (for_loop_post (fun _ t => length t = length io)) in H; [done..|].
  intros j t t' Hj Hl Hb.
  destruct (v !! j) as [x|]; simpl in Hb; [|done].
  destruct (t !! (off + j)) as [y|]; simpl in Hb; [|done].
  apply write_inv in Hb as [_ ->]. by rewrite length_insert.
Qed.

Lemma reflect_column_inv (V : list dbl) (m i : nat) (aj aj' : list dbl) :
  reflect_column V m i aj = Some aj' →
  length aj' = length aj
  ∧ (0 < m - i → i + (m - i) ≤ length aj ∧ m - i ≤ length V).
Proof.
  unfold reflect_column. intros H.
  destruct (subdot_product aj V (m - i) i) as [d|] eqn:Hd; simpl in H; [|done].
  split.
  - by apply partialscalar_sub_length in H.
  - intros Hp. by apply (subdot_product_inv aj V (m - i) i d).
Qed.

Lemma householder_iter_inv (m n i : nat) (a v a' v' : list (list dbl)) :
  householder_iter m n i (a, v) = Some (a', v') →
  ∃ ai vi V,
    a !! i = Some ai ∧ v !! i = Some vi
    ∧ reflection_vector ai vi m i = Some V
    ∧ v' = <[i:=V]> v
    ∧ length a' = length a
    ∧ (∀ j, j < i ∨ n ≤ j → a' !! j = a !! j)
    ∧ (∀ j, i ≤ j < n →
         ∃ aj aj', a !! j = Some aj ∧ reflect_column V m i aj = Some aj'
                   ∧ a' !! j = Some aj').
Proof.
  unfold householder_iter. intros H.
  destruct (a !! i) as [ai|] eqn:Hai; simpl in H; [|done].
  destruct (v !! i) as [vi|] eqn:Hvi; simpl in H; [|done].
  destruct (reflection_vector ai vi m i) as [V|] eqn:HV; simpl in H; [|done].
  destruct (write v i V) as [v1|] eqn:Hw; simpl in H; [|done].
  apply write_inv in Hw as [_ ->].
  destruct (for_loop i (n - i) _ a) as [a1|] eqn:Hl; simpl in H; [|done].
  injection H as <- <-.
  exists ai, vi, V. repeat (split; [done|]).
  apply (for_loop_post
    (fun j c => length c = length a
                ∧ (∀ j', j' < i ∨ j ≤ j' → c !! j' = a !! j')
                ∧ (∀ j', i ≤ j' < j →
                     ∃ aj aj', a !! j' = Some aj
                               ∧ reflect_column V m i aj = Some aj'
                               ∧ c !! j' = Some aj'))) in Hl.
  - destruct Hl as (Hlen & Hout & Hmid). split; [done|]. split.
    + intros j Hj. apply Hout. lia.
    + intros j Hj. apply Hmid. lia.
  - split; [done|]. split; [done|]. intros; lia.
  - intros j c c' Hj (Hlen & Hout & Hmid) Hb.
    rewrite Hout in Hb by lia.
    destruct (a !! j) as [aj|] eqn:Haj; simpl in Hb; [|done].
    destruct (reflect_column V m i aj) as [aj'|] eqn:Hr; simpl in Hb; [|done].
    apply write_inv in Hb as [Hlt ->].
    split; [by rewrite length_insert|]. split.
    + intros j' Hj'. rewrite list_lookup_insert_ne by lia. apply Hout. lia.
    + intros j' Hj'. destruct (decide (j' = j)) as [->|Hne].
      * exists aj, aj'. by rewrite list_lookup_insert_eq by lia.
      * rewrite list_lookup_insert_ne by done. apply Hmid. lia.
Qed.

Lemma householder_upto_prefix (a v : list (list dbl)) (m n : nat) (s : store) :
  householder a v m n = Some s →
  ∀ i, i ≤ n → ∃ a' v', householder_upto a v m n i = Some (a', v').
Proof.
  intros H i Hi. unfold householder in H.
  replace n with (i + (n - i)) in H at 1 by lia.
  rewrite for_loop_app in H. unfold householder_upto.
  destruct (for_loop 0 i (householder_iter m n) (a, v)) as [[a' v']|];
    [eauto|done].
Qed.

Lemma householder_upto_vectors_ahead (a v : list (list dbl)) (m n : nat) :
  ∀ i a' v', householder_upto a v m n i = Some (a', v') →
             length v' = length v ∧ ∀ k, i ≤ k → v' !! k = v !! k.
Proof.
  induction i as [|i IH]; intros a' v' H.
  - injection H as <- <-. done.
  - rewrite householder_upto_S in H.
    destruct (householder_upto a v m n i) as [[a1 v1]|] eqn:Hup; [|done].
    simpl in H. destruct (IH a1 v1 eq_refl) as [Hl Hk].
    apply householder_iter_inv in H as (ai & vi & V & _ & _ & _ & -> & _).
    split; [by rewrite length_insert|].
    intros k Hk'. rewrite list_lookup_insert_ne by lia. apply Hk. lia.
Qed.

(** The storage contract is what the routine needs: a run that stays
    inside its arrays was given columns of length [m] and vectors of
    capacity [m - i]. *)
Lemma householder_Some_contract (a v : list (list dbl)) (m n : nat)
    (s : store) :
  1 ≤ n → n ≤ m → householder a v m n = Some s →
  columns_ok m n a ∧ vectors_ok m n v.
Proof.
  intros H1 Hnm Hrun. split.
  - intros j Hj.
    destruct (householder_upto_prefix a v m n s Hrun 1) as (a1 & v1 & Hup);
      [lia|].
    rewrite householder_upto_S in Hup.
    change (householder_iter m n 0 (a, v) = Some (a1, v1)) in Hup.
    apply householder_iter_inv in Hup
      as (_ & _ & V & _ & _ & _ & _ & _ & _ & Hmid).
    destruct (Hmid j) as (aj & aj' & Haj & Hr & _); [lia|].
    exists aj. split; [done|].
    apply reflect_column_inv in Hr as [_ Hr]. lia.
  - intros i Hi.
    destruct (householder_upto_prefix a v m n s Hrun (S i)) as (a2 & v2 & Hup);
      [lia|].
    rewrite householder_upto_S in Hup.
    destruct (householder_upto a v m n i) as [[a1 v1]|] eqn:Hup1; [|done].
    change (householder_iter m n i (a1, v1) = Some (a2, v2)) in Hup.
    destruct (householder_upto_vectors_ahead a v m n i a1 v1 Hup1) as [_ Hk].
    apply householder_iter_inv in Hup
      as (ai & vi & V & _ & Hvi & HV & _).
    exists vi. rewrite <- Hk by lia. split; [done|].
    by apply reflection_vector_inv in HV as [? _].
Qed.

(** ** The run as a whole: what it leaves alone *)

Lemma householder_run_frame (a v : list (list dbl)) (m n : nat) :
  n ≤ m → columns_ok m n a → vectors_ok m n v →
  ∀ i, i ≤ n →
    ∃ a' v', householder_upto a v m n i = Some (a', v')
             ∧ length a' = length a ∧ length v' = length v
             ∧ (∀ j r, n ≤ j ∨ m ≤ r → entry a' j r = entry a j r)
             ∧ (∀ k l, i ≤ k ∨ m - k ≤ l → entry v' k l = entry v k l).
Proof.
  intros Hnm Ha Hv. induction i as [|i IH]; intros Hi.
  - exists a, v. done.
  - destruct IH as (a1 & v1 & Hup & Hla & Hlv & Hfa & Hfv); [lia|].
    destruct (householder_upto_safe a v m n Hnm Ha Hv i)
      as (a1' & v1' & Hup' & Ha1 & Hv1 & _); [lia|].
    assert (a1' = a1 ∧ v1' = v1) as [-> ->] by (split; congruence).
    destruct (householder_iter_spec m n i a1 v1)
      as (ai & vi & V & a2 & Hai & Hvi & HV & HlV & Hit & Hl2 & _);
      [lia|done..|].
    destruct (householder_iter_frame m n i a1 v1 a2 (<[i:=V]> v1))
      as (Hcols & Hrows & _); [lia|done..|].
    destruct (Ha1 i) as (c & Hc & Hlai); [lia|].
    assert (c = ai) as -> by congruence.
    destruct (Hv1 i) as (c & Hc' & Hlvi); [lia|].
    assert (c = vi) as -> by congruence.
    destruct (reflection_vector_spec ai vi m i)
      as (V' & HV' & _ & _ & _ & Htail); [lia..|].
    assert (V' = V) as -> by congruence.
    assert (Hiv : i < length v1) by (eapply (lookup_lt_Some v1 i); done).
    exists a2, (<[i:=V]> v1). rewrite householder_upto_S, Hup.
    split; [done|]. split; [congruence|].
    split; [rewrite length_insert; congruence|]. split.
    + intros j r Hjr. rewrite <- Hfa by done.
      destruct Hjr as [Hj|Hr].
      * unfold entry. rewrite Hcols by lia. done.
      * apply Hrows. lia.
    + intros k l Hkl. rewrite <- Hfv by lia.
      destruct (decide (k = i)) as [->|Hne].
      * unfold entry. rewrite list_lookup_insert_eq, Hvi by done. simpl.
        apply Htail. lia.
      * unfold entry. by rewrite list_lookup_insert_ne by done.
Qed.

Lemma reflect_column_ext (V V' : list dbl) (m i : nat) (aj : list dbl) :
  i ≤ m → m ≤ length aj → m - i ≤ length V → m - i ≤ length V' →
  (∀ l, l < m - i → V !! l = V' !! l) →
  reflect_column V m i aj = reflect_column V' m i aj.
Proof.
  intros Him Haj HV HV' Hagree.
  destruct (reflect_column_spec V m i aj Him Haj HV)
    as (b & -> & Hlb & Hinb & Houtb).
  destruct (reflect_column_spec V' m i aj Him Haj HV')
    as (c & -> & Hlc & Hinc & Houtc).
  f_equal. apply list_eq. intros r.
  assert (HD : ∀ l, l < m - i → getD V l = getD V' l).
  { intros l Hl. unfold getD. by rewrite Hagree. }
  destruct (decide (i ≤ r < m)) as [Hin|Hout].
  - replace r with (i + (r - i)) by lia.
    rewrite Hinb, Hinc by lia. rewrite HD by lia.
    rewrite (dsum_ext _ (fun l => dmul (getD aj (i + l)) (getD V' l)));
      [done|].
    intros l Hl. rewrite HD by lia. done.
  - rewrite Houtb, Houtc by lia. done.
Qed.

Lemma reflection_vector_ext (ai vi vi' V V' : list dbl) (m i : nat) :
  i < m → m ≤ length ai → m - i ≤ length vi → m - i ≤ length vi' →
  reflection_vector ai vi m i = Some V →
  reflection_vector ai vi' m i = Some V' →
  ∀ l, l < m - i → V !! l = V' !! l.
Proof.
  intros Him Hai Hvi Hvi' HV HV' l Hl.
  destruct (reflection_vector_spec ai vi m i Him Hai Hvi)
    as (W & HW & _ & H0 & Hk & _).
  destruct (reflection_vector_spec ai vi' m i Him Hai Hvi')
    as (W' & HW' & _ & H0' & Hk' & _).
  assert (W = V) as -> by congruence.
  assert (W' = V') as -> by congruence.
  destruct l as [|l].
  - by rewrite H0, H0'.
  - by rewrite Hk, Hk' by lia.
Qed.

(** The prior content of [v] plays no part in the result. *)
Lemma householder_upto_v_irrelevant (a v v' : list (list dbl)) (m n : nat) :
  n ≤ m → columns_ok m n a → vectors_ok m n v → vectors_ok m n v' →
  ∀ i, i ≤ n →
    ∃ a1 v1 v1', householder_upto a v m n i = Some (a1, v1)
                 ∧ householder_upto a v' m n i = Some (a1, v1')
                 ∧ ∀ k l, k < i → l < m - k → entry v1 k l = entry v1' k l.
Proof.
  intros Hnm Ha Hv Hv'. induction i as [|i IH]; intros Hi.
  - exists a, v, v'. split; [done|]. split; [done|]. intros; lia.
  - destruct IH as (a1 & v1 & v1' & Hup & Hup' & Hagree); [lia|].
    destruct (householder_upto_safe a v m n Hnm Ha Hv i)
      as (x & y & Hx & Ha1 & Hv1 & _); [lia|].
    assert (x = a1 ∧ y = v1) as [-> ->] by (split; congruence).
    destruct (householder_upto_safe a v' m n Hnm Ha Hv' i)
      as (x & y & Hx' & _ & Hv1' & _); [lia|].
    assert (x = a1 ∧ y = v1') as [-> ->] by (split; congruence).
    destruct (householder_iter_spec m n i a1 v1)
      as (ai & vi & V & a2 & Hai & Hvi & HV & HlV & Hit & Hl2 & Hout & Hmid);
      [lia|done..|].
    destruct (householder_iter_spec m n i a1 v1')
      as (ai' & vi' & V' & a2' & Hai' & Hvi' & HV' & HlV' & Hit' & Hl2'
          & Hout' & Hmid'); [lia|done..|].
    assert (ai' = ai) as -> by congruence.
    destruct (Ha1 i) as (c & Hc & Hlai); [lia|].
    assert (c = ai) as -> by congruence.
    destruct (Hv1 i) as (c & Hc1 & Hlvi); [lia|].
    assert (c = vi) as -> by congruence.
    destruct (Hv1' i) as (c & Hc2 & Hlvi'); [lia|].
    assert (c = vi') as -> by congruence.
    pose proof (reflection_vector_ext ai vi vi' V V' m i
                  ltac:(lia) Hlai Hlvi Hlvi' HV HV') as HVV.
    assert (a2' = a2) as ->.
    { apply list_eq. intros j. destruct (decide (i ≤ j < n)) as [Hj|Hj].
      - destruct (Hmid j Hj) as (aj & b & Haj & Hb & _ & ->).
        destruct (Hmid' j Hj) as (aj' & b' & Haj' & Hb' & _ & ->).
        assert (aj' = aj) as -> by congruence.
        destruct (Ha1 j) as (c & Hc3 & Hlaj); [lia|].
        assert (c = aj) as -> by congruence.
        rewrite (reflect_column_ext V V' m i aj) in Hb by (done || lia).
        congruence.
      - rewrite Hout, Hout' by lia. done. }
    assert (Hiv : i < length v1) by (eapply (lookup_lt_Some v1 i); done).
    assert (Hiv' : i < length v1') by (eapply (lookup_lt_Some v1' i); done).
    exists a2, (<[i:=V]> v1), (<[i:=V']> v1').
    rewrite !householder_upto_S, Hup, Hup'.
    split; [done|]. split; [done|].
    intros k l Hk Hl. unfold entry.
    destruct (decide (k = i)) as [->|Hne].
    + rewrite !list_lookup_insert_eq by done. simpl. by apply HVV.
    + rewrite !list_lookup_insert_ne by done. apply Hagree; lia.
Qed.

(** Rows before [k] are final once [k] iterations are over. *)
Lemma householder_upto_rows_final (a v : list (list dbl)) (m n k : nat) :
  n ≤ m → columns_ok m n a → vectors_ok m n v → k ≤ n →
  ∀ t, k ≤ t → t ≤ n →
    ∃ ak vk a_t v_t,
      householder_upto a v m n k = Some (ak, vk)
      ∧ householder_upto a v m n t = Some (a_t, v_t)
      ∧ ∀ j r, r < k → entry a_t j r = entry ak j r.
Proof.
  intros Hnm Ha Hv Hk. induction t as [|t IH]; intros Hkt Ht.
  - assert (k = 0) as -> by lia. exists a, v, a, v. done.
  - destruct (householder_upto_safe a v m n Hnm Ha Hv (S t) Ht)
      as (a2 & v2 & Hup2 & _).
    destruct (decide (k = S t)) as [->|Hne].
    + exists a2, v2, a2, v2. done.
    + destruct IH as (ak & vk & a1 & v1 & Hupk & Hup1 & Hrows); [lia..|].
      destruct (householder_upto_safe a v m n Hnm Ha Hv t)
        as (x & y & Hx & Ha1 & Hv1 & _); [lia|].
      assert (x = a1 ∧ y = v1) as [-> ->] by (split; congruence).
      pose proof Hup2 as Hit. rewrite householder_upto_S, Hup1 in Hit.
      change (householder_iter m n t (a1, v1) = Some (a2, v2)) in Hit.
      destruct (householder_iter_frame m n t a1 v1 a2 v2)
        as (_ & Hfr & _); [lia|done..|].
      exists ak, vk, a2, v2. split; [done|]. split; [done|].
      intros j r Hr. rewrite Hfr by lia. by apply Hrows.
Qed.

(** A NaN handed to the routine is still there when it returns. *)
Lemma householder_upto_NaN_kept (a v : list (list dbl)) (m n : nat) :
  n ≤ m → columns_ok m n a → vectors_ok m n v →
  ∀ i, i ≤ n →
    ∃ a' v', householder_upto a v m n i = Some (a', v')
             ∧ ∀ j r, entry a j r = Some NaN → entry a' j r = Some NaN.
Proof.
  intros Hnm Ha Hv. induction i as [|i IH]; intros Hi.
  - exists a, v. done.
  - destruct IH as (a1 & v1 & Hup & Hnan); [lia|].
    destruct (householder_upto_safe a v m n Hnm Ha Hv i)
      as (x & y & Hx & Ha1 & Hv1 & _); [lia|].
    assert (x = a1 ∧ y = v1) as [-> ->] by (split; congruence).
    destruct (householder_upto_safe a v m n Hnm Ha Hv (S i) Hi)
      as (a2 & v2 & Hup2 & _).
    pose proof Hup2 as Hit. rewrite householder_upto_S, Hup in Hit.
    change (householder_iter m n i (a1, v1) = Some (a2, v2)) in Hit.
    exists a2, v2. split; [done|]. intros j r Hjr.
    apply (householder_iter_NaN_kept m n i a1 v1 a2 v2); [lia|done..|].
    by apply Hnan.
Qed.

Section MoreSums.
Local Open Scope R_scope.




End MoreSums.

Section Isometry.
Local Open Scope R_scope.
Variable u : nat → R.
Variable L : nat.
Hypothesis Hunit : sum_range (fun k => u k * u k) 0 L = 1.



End Isometry.

Section FirstEntry.
Local Open Scope R_scope.
Variable x : nat → R.
Variable L : nat.
Hypothesis Hnz : hvnorm x L ≠ 0.




End FirstEntry.

(** ** A non-degenerate run, step by step, in real terms *)










(** ** The orthogonal factor *)



(** ** A criterion for a run without degenerate step *)

Section Forward.
Local Open Scope R_scope.

End Forward.


(** ** The driver's matrix and vectors *)







Section SecondDifference.
Local Open Scope R_scope.


End SecondDifference.



(** ** The driver's norm check *)



Lemma main_calls (m n : Z) :
  (0 ≤ n)%Z → (n ≤ m)%Z →
  main m n = CallsHouseholder (init_matrix (Z.to_nat m) (Z.to_nat n))
                              (Z.to_nat m) (Z.to_nat n).
Proof.
  intros H0 Hnm. unfold main.
  assert (E1 : (m <? n)%Z = false) by (apply Z.ltb_ge; lia).
  assert (E2 : (n <? 0)%Z = false) by (apply Z.ltb_ge; lia).
  by rewrite E1, E2.
Qed.

(** * Further properties of the code *)

(** X1.  For [1 <= n <= m], [householder] stays inside its arrays exactly
    when the storage contract holds: [a] has [n] columns of length at least
    [m] and [v] has [n] vectors, the [i]-th of capacity at least [m - i]. *)
Theorem householder_contract_iff (a v : list (list dbl)) (m n : nat) :
  1 ≤ n → n ≤ m →
  (is_Some (householder a v m n) ↔ columns_ok m n a ∧ vectors_ok m n v).
Proof.
  intros H1 Hnm. split.
  - intros [s Hs]. by apply (householder_Some_contract a v m n s).
  - intros [Ha Hv].
    destruct (householder_upto_safe a v m n Hnm Ha Hv n)
      as (a' & v' & H & _); [lia|].
    by exists (a', v').
Qed.

(** X1 at the worked input. *)
Lemma householder_contract_iff_witness :
  is_Some (householder example_A example_V 3 2)
  ↔ columns_ok 3 2 example_A ∧ vectors_ok 3 2 example_V.
Proof. apply (householder_contract_iff example_A example_V 3 2); lia. Defined.

(** X2.  Below the storage contract [householder] changes nothing outside
    the [m] by [n] matrix and the first [m - i] cells of [v[i]], [i < n]:
    rows from [m] on, columns from [n] on, the spare cells of each vector
    and the vectors from [n] on come back as they were, and no array
    changes its size. *)
Theorem householder_outside_untouched (a v : list (list dbl)) (m n : nat) :
  n ≤ m → columns_ok m n a → vectors_ok m n v →
  ∃ aR vR, householder a v m n = Some (aR, vR)
           ∧ length aR = length a ∧ length vR = length v
           ∧ (∀ j r, n ≤ j ∨ m ≤ r → entry aR j r = entry a j r)
           ∧ (∀ k l, n ≤ k ∨ m - k ≤ l → entry vR k l = entry v k l).
Proof.
  intros Hnm Ha Hv.
  apply (householder_run_frame a v m n Hnm Ha Hv n). lia.
Qed.

Lemma example_big_columns_ok : columns_ok 3 2 example_big_A.
Proof.
  intros j Hj. destruct j as [|[|j]]; [| |lia];
    (eexists; split; [reflexivity|simpl; lia]).
Qed.

Lemma example_big_vectors_ok : vectors_ok 3 2 example_big_V.
Proof.
  intros j Hj. destruct j as [|[|j]]; [| |lia];
    (eexists; split; [reflexivity|simpl; lia]).
Qed.

(** X2 at storage with a spare row, column, cells and vector. *)
Lemma householder_outside_untouched_witness :
  ∃ aR vR, householder example_big_A example_big_V 3 2 = Some (aR, vR)
           ∧ length aR = length example_big_A
           ∧ length vR = length example_big_V
           ∧ (∀ j r, 2 ≤ j ∨ 3 ≤ r →
                     entry aR j r = entry example_big_A j r)
           ∧ (∀ k l, 2 ≤ k ∨ 3 - k ≤ l →
                     entry vR k l = entry example_big_V k l).
Proof.
  apply (householder_outside_untouched example_big_A example_big_V 3 2);
    [lia | apply example_big_columns_ok | apply example_big_vectors_ok].
Defined.

(** X3.  The content [v] has before the call plays no part: two calls on
    the same matrix with different [v] return the same R and the same
    reflection vectors. *)
Theorem householder_ignores_prior_v (a v v' : list (list dbl)) (m n : nat) :
  n ≤ m → columns_ok m n a → vectors_ok m n v → vectors_ok m n v' →
  ∃ aR vR vR', householder a v m n = Some (aR, vR)
               ∧ householder a v' m n = Some (aR, vR')
               ∧ ∀ k l, k < n → l < m - k → entry vR k l = entry vR' k l.
Proof.
  intros Hnm Ha Hv Hv'.
  apply (householder_upto_v_irrelevant a v v' m n Hnm Ha Hv Hv' n). lia.
Qed.

(** X3 at the worked matrix with two different stores for the vectors. *)
Lemma householder_ignores_prior_v_witness :
  ∃ aR vR vR', householder example_A example_V 3 2 = Some (aR, vR)
               ∧ householder example_A example_big_V 3 2 = Some (aR, vR')
               ∧ ∀ k l, k < 2 → l < 3 - k → entry vR k l = entry vR' k l.
Proof.
  apply (householder_ignores_prior_v example_A example_V example_big_V 3 2);
    [lia | apply example_columns_ok | apply example_vectors_ok
    | apply example_big_vectors_ok].
Defined.

(** X4.  Rows are final as the columns are: after [k] iterations the rows
    before [k] of every column are those of the returned R. *)
Theorem householder_rows_final (a v : list (list dbl)) (m n k : nat) :
  n ≤ m → columns_ok m n a → vectors_ok m n v → k ≤ n →
  ∃ ak vk aR vR,
    householder_upto a v m n k = Some (ak, vk)
    ∧ householder a v m n = Some (aR, vR)
    ∧ ∀ j r, r < k → entry aR j r = entry ak j r.
Proof.
  intros Hnm Ha Hv Hk.
  apply (householder_upto_rows_final a v m n k Hnm Ha Hv Hk n); lia.
Qed.

(** X4 at the worked input, after its first iteration. *)
Lemma householder_rows_final_witness :
  ∃ ak vk aR vR,
    householder_upto example_A example_V 3 2 1 = Some (ak, vk)
    ∧ householder example_A example_V 3 2 = Some (aR, vR)
    ∧ ∀ j r, r < 1 → entry aR j r = entry ak j r.
Proof.
  apply (householder_rows_final example_A example_V 3 2 1);
    [lia | apply example_columns_ok | apply example_vectors_ok | lia].
Defined.













(** X11.  With [n = 0] columns, which the dimension check lets through for
    every [m >= 0], the driver reads [v[n - 1]], the cell before the array
    of vectors, when it prints the last norm: it goes out of bounds. *)
Theorem main_run_no_columns (heap : nat → nat → dbl) (m : Z) :
  (0 ≤ m)%Z → main_run heap m 0 = RunOutOfBounds.
Proof.
  intros Hm. unfold main_run. rewrite main_calls by lia. done.
Qed.

(** X11 at the dimensions 3 by 0. *)
Lemma main_run_no_columns_witness :
  main_run (fun _ _ => Fin 0) 3 0 = RunOutOfBounds.
Proof. apply (main_run_no_columns (fun _ _ => Fin 0) 3). lia. Defined.

(** X12.  Below the storage contract a NaN handed in is never repaired:
    every entry of [a] that is NaN before the call is NaN after it. *)
Theorem householder_keeps_NaN (a v : list (list dbl)) (m n : nat) :
  n ≤ m → columns_ok m n a → vectors_ok m n v →
  ∃ aR vR, householder a v m n = Some (aR, vR)
           ∧ ∀ j r, entry a j r = Some NaN → entry aR j r = Some NaN.
Proof.
  intros Hnm Ha Hv.
  apply (householder_upto_NaN_kept a v m n Hnm Ha Hv n). lia.
Qed.

Lemma example_N_columns_ok : columns_ok 3 2 example_N.
Proof.
  intros j Hj. destruct j as [|[|j]]; [| |lia];
    (eexists; split; [reflexivity|simpl; lia]).
Qed.

(** X12 at a matrix with a NaN at [a[0][1]]. *)
Lemma householder_keeps_NaN_witness :
  ∃ aR vR, householder example_N example_V 3 2 = Some (aR, vR)
           ∧ entry aR 0 1 = Some NaN.
Proof.
  destruct (householder_keeps_NaN example_N example_V 3 2)
    as (aR & vR & HR & Hnan);
    [lia | apply example_N_columns_ok | apply example_vectors_ok |].
  exists aR, vR. split; [exact HR|]. apply Hnan. reflexivity.
Defined.
